(** * Wings websocket control channel and resource calculator

    A shallow embedding of [server/resources.go] (package [server]) and of
    [websocket.go] (package [main]), with the properties of the
    specification proved over it.

    Conventions.
    - [uint64] and [int64] values are integers of [Z]; arithmetic that can
      wrap in Go is written with the wrap-around spelled out ([Uint64.sub],
      [Int64.sub]).
    - [float64] values are the IEEE-754 binary64 numbers of the standard
      library's [SpecFloat] (precision 53, [emax] 1024); the operations are
      the correctly rounded ones defined there.
    - A Go [error] is an [option string]: [None] is [nil].
    - Go maps are [gmap]s. *)

From Stdlib Require Import ZArith Lia Bool List String Ascii.
From Stdlib.Strings Require Import Byte.
From Stdlib Require Import SpecFloat.
From stdpp Require Import base gmap strings.

Import ListNotations.
Local Open Scope string_scope.
Local Open Scope Z_scope.

(** ** Machine integers *)

Module Uint64.
Definition modulus : Z := 2 ^ 64.
Definition in_range (x : Z) : Prop := 0 <= x < modulus.
Definition wrap (x : Z) : Z := x mod modulus.
(** [a - b] on [uint64]. *)
Definition sub (a b : Z) : Z := wrap (a - b).
End Uint64.

Module Int64.
Definition min_int : Z := - 2 ^ 63.
Definition max_int : Z := 2 ^ 63 - 1.
Definition in_range (x : Z) : Prop := min_int <= x <= max_int.
(** Two's complement reduction to the signed 64-bit range. *)
Definition wrap (x : Z) : Z := (x + 2 ^ 63) mod 2 ^ 64 - 2 ^ 63.
(** [a - b] on [int64]. *)
Definition sub (a b : Z) : Z := wrap (a - b).
End Int64.

(** ** float64 *)

Module Float64.
Definition prec : Z := 53.
Definition emax : Z := 1024.

Abbreviation float64 := spec_float.

Definition zero : float64 := S754_zero false.

Definition sub : float64 -> float64 -> float64 := SFsub prec emax.
Definition mul : float64 -> float64 -> float64 := SFmul prec emax.
Definition div : float64 -> float64 -> float64 := SFdiv prec emax.
Definition ltb : float64 -> float64 -> bool := SFltb.
Definition leb : float64 -> float64 -> bool := SFleb.
Definition eqb : float64 -> float64 -> bool := SFeqb.

(** The conversion [float64(n)] of an integer: the nearest binary64
    number, ties to even. *)
Definition of_Z (n : Z) : float64 := binary_normalize prec emax n 0 false.

(** Literals of the source. *)
Definition c100 : float64 := of_Z 100.
Definition c1000 : float64 := of_Z 1000.

(** The canonical binary64 number [m * 2^e] for [0 < m <= 2^53] already
    aligned at exponent [e]; a carry into bit 53 moves to the next
    exponent. *)
Definition of_aligned (s : bool) (m : Z) (e : Z) : float64 :=
  match m with
  | Zpos p => if Z.eqb m (2 ^ prec) then S754_finite s (Pos.div2 p) (e + 1)
              else S754_finite s p e
  | _ => S754_zero s
  end.

(** [math.Round]: the nearest integer, halves away from zero; zeros,
    infinities and NaN are returned unchanged.  As in the Go library, a
    number of magnitude below one becomes a signed zero or a signed one,
    a number whose exponent leaves no fraction bits is returned as it is,
    and otherwise half a unit is added to the significand and the fraction
    bits are cleared. *)
Definition Round (x : float64) : float64 :=
  match x with
  | S754_finite s m e =>
      if 0 <=? e then x
      else
        let d := Zpos (digits2_pos m) + e in
        if d <? 0 then S754_zero s
        else if d =? 0 then of_aligned s (2 ^ (prec - 1)) (1 - prec)
        else
          let k := - e in
          of_aligned s (((Zpos m + 2 ^ (k - 1)) / 2 ^ k) * 2 ^ k) e
  | _ => x
  end.
End Float64.

(** ** Package server: resource usage *)

Module Server.
Import Float64.

(** [types.MemoryStats] of the Docker API, the fields the calculator
    reads. *)
Record MemoryStats := {
  Usage : Z;
  Stats : gmap string Z
}.

(** [types.CPUUsage] and [types.CPUStats] of the Docker API. *)
Record CPUUsage := {
  TotalUsage : Z;
  PercpuUsage : list Z
}.

Record CPUStats := {
  CPUUsage_ : CPUUsage;
  SystemUsage : Z;
  OnlineCPUs : Z
}.

Record NetworkUsage := {
  RxBytes : Z;
  TxBytes : Z
}.

(** The embedded [sync.RWMutex] is not part of the data: sequentially,
    [Lock] and the deferred [Unlock] bracket the assignments and leave the
    mutex as they found it. *)
Record ResourceUsage := {
  Memory : Z;
  MemoryLimit : Z;
  CpuAbsolute : float64;
  Disk : Z;
  Network : NetworkUsage
}.

Definition Empty (ru : ResourceUsage) : ResourceUsage :=
  let ru := {| Memory := 0; MemoryLimit := MemoryLimit ru;
               CpuAbsolute := CpuAbsolute ru; Disk := Disk ru;
               Network := Network ru |} in
  let ru := {| Memory := Memory ru; MemoryLimit := MemoryLimit ru;
               CpuAbsolute := zero; Disk := Disk ru;
               Network := Network ru |} in
  let ru := {| Memory := Memory ru; MemoryLimit := MemoryLimit ru;
               CpuAbsolute := CpuAbsolute ru; Disk := Disk ru;
               Network := {| RxBytes := RxBytes (Network ru); TxBytes := 0 |} |} in
  {| Memory := Memory ru; MemoryLimit := MemoryLimit ru;
     CpuAbsolute := CpuAbsolute ru; Disk := Disk ru;
     Network := {| RxBytes := 0; TxBytes := TxBytes (Network ru) |} |}.

(** A one-value map read [m[k]]: the zero value when the key is absent. *)
Definition map_get (m : gmap string Z) (k : string) : Z := default 0 (m !! k).

Definition CalculateDockerMemory (ru : ResourceUsage) (stats : MemoryStats) : Z :=
  match Stats stats !! "total_inactive_file" with
  | Some v =>
      if v <? Usage stats then Uint64.sub (Usage stats) v
      else
        let v := map_get (Stats stats) "inactive_file" in
        if v <? Usage stats then Uint64.sub (Usage stats) v
        else Usage stats
  | None =>
      let v := map_get (Stats stats) "inactive_file" in
      if v <? Usage stats then Uint64.sub (Usage stats) v
      else Usage stats
  end.

(** The three local variables of [CalculateAbsoluteCpu]. *)
Definition cpuDelta (pStats stats : CPUStats) : float64 :=
  sub (of_Z (TotalUsage (CPUUsage_ stats))) (of_Z (TotalUsage (CPUUsage_ pStats))).

Definition systemDelta (pStats stats : CPUStats) : float64 :=
  sub (of_Z (SystemUsage stats)) (of_Z (SystemUsage pStats)).

Definition cpus (stats : CPUStats) : float64 :=
  let cpus := of_Z (OnlineCPUs stats) in
  if eqb cpus zero then of_Z (Z.of_nat (length (PercpuUsage (CPUUsage_ stats))))
  else cpus.

Definition percent (pStats stats : CPUStats) : float64 :=
  if ltb zero (systemDelta pStats stats) && ltb zero (cpuDelta pStats stats)
  then mul (mul (div (cpuDelta pStats stats) (systemDelta pStats stats))
                (cpus stats)) c100
  else zero.

Definition CalculateAbsoluteCpu (ru : ResourceUsage) (pStats stats : CPUStats) : float64 :=
  div (Round (mul (percent pStats stats) c1000)) c1000.
End Server.

(** ** Package main: the websocket handler *)

Module Main.

Definition SetStateEvent : string := "set state".
Definition SendServerLogsEvent : string := "send logs".
Definition SendCommandEvent : string := "send command".

Record WebsocketMessage := {
  Event : string;
  Args : list string;
  inbound : bool
}.

(** Modelled from the spec: [jwt.Payload] is declared by the JWT library;
    the token carries a not-before and an expiration timestamp, read by
    the handler through [Unix()] as seconds in [int64]. *)
Record Payload := {
  NotBefore : Z;
  ExpirationTime : Z
}.

Record WebsocketTokenPayload := {
  Payload_ : Payload;
  UserID : string;
  ServerUUID : string;
  Permissions : list string
}.

Definition PermissionConnect : string := "connect".
Definition PermissionSendCommand : string := "send-command".
Definition PermissionSendPower : string := "send-power".

Definition HasPermission (wtp : WebsocketTokenPayload) (permission : string) : bool :=
  (fix range (ks : list string) : bool :=
     match ks with
     | [] => false
     | k :: ks' => if String.eqb k permission then true else range ks'
     end) (Permissions wtp).

Definition error := option string.

(** A result pair [(value, error)] of which exactly one side is set. *)
Inductive result (A : Type) :=
| Ok (a : A)
| Err (msg : string).
Arguments Ok {A} a.
Arguments Err {A} msg.

Section ParseJWT.
(** [jwt.Verify] under the daemon's HMAC key: checks the signature and
    decodes the claims. *)
Variable jwt_Verify : list byte -> result WebsocketTokenPayload.

(** [now1] and [now2] are the two readings of [time.Now().Unix()], in
    the order the function takes them. *)
Definition ParseJWT (now1 now2 : Z) (token : list byte) : result WebsocketTokenPayload :=
  match jwt_Verify token with
  | Err e => Err e
  | Ok payload =>
      if Int64.sub now1 (NotBefore (Payload_ payload)) <=? -15 then
        Err "jwt violates nbf"
      else if Int64.sub now2 (ExpirationTime (Payload_ payload)) >? 15 then
        Err "jwt violates exp"
      else if negb (HasPermission payload PermissionConnect) then
        Err "not authorized to connect to this socket"
      else Ok payload
  end.
End ParseJWT.

(** [server.Server], the field the handler compares. *)
Record Server := {
  Uuid : string
}.

(** The handler's [Mutex] and [Connection] and the server's [Environment]
    are stateful collaborators and live in the [World] below. *)
Record WebsocketHandler := {
  Server_ : Server;
  JWT : option WebsocketTokenPayload
}.

Definition TokenValid (now : Z) (wsh : WebsocketHandler) : error :=
  match JWT wsh with
  | None => Some "no jwt present"
  | Some jwt =>
      if Int64.sub now (ExpirationTime (Payload_ jwt)) >? 15 then
        Some "jwt violates nbf"
      else if negb (HasPermission jwt PermissionConnect) then
        Some "jwt does not have connect permission"
      else if negb (String.eqb (Uuid (Server_ wsh)) (ServerUUID jwt)) then
        Some "jwt server uuid mismatch"
      else None
  end.

Inductive Signal := os_Interrupt | os_Kill.

(** The control surface: [server.Environment], over its own state. *)
Class Environment (E : Type) := {
  env_Start : E -> error * E;
  env_Stop : E -> error * E;
  env_Terminate : Signal -> E -> error * E;
  env_IsRunning : E -> (bool * error) * E;
  env_Readlog : Z -> E -> (list string * error) * E;
  env_SendCommand : string -> E -> error * E
}.

(** The socket: [websocket.Conn], over its own state. *)
Class Connection (C : Type) := {
  conn_WriteJSON : WebsocketMessage -> C -> error * C
}.

(** What the handler asked of its collaborators, oldest first. *)
Inductive Call :=
| CallStart
| CallStop
| CallTerminate (sig : Signal)
| CallIsRunning
| CallReadlog (n : Z)
| CallSendCommand (line : string)
| CallWriteJSON (m : WebsocketMessage).

Record World (E C : Type) := {
  w_env : E;
  w_conn : C;
  w_calls : list Call
}.
Arguments w_env {E C} w.
Arguments w_conn {E C} w.
Arguments w_calls {E C} w.
Arguments Build_World {E C} w_env w_conn w_calls.

(** State passing over the world. *)
Definition M (W A : Type) : Type := W -> A * W.
Definition ret {W A} (a : A) : M W A := fun w => (a, w).
Definition bind {W A B} (m : M W A) (k : A -> M W B) : M W B :=
  fun w => let (a, w') := m w in k a w'.

Declare Scope handler_scope.
Delimit Scope handler_scope with handler.
Notation "x <- m ;; k" := (bind m (fun x => k))
  (at level 100, m at next level, right associativity) : handler_scope.
Notation "m ;;; k" := (bind m (fun _ => k))
  (at level 100, right associativity) : handler_scope.

(** How a call of the handler ends. *)
Inductive outcome :=
| Returned (err : error)
| Panicked.

Section Handler.
Context {E C : Type} `{Environment E} `{Connection C}.

(** [server.ConsoleOutputEvent], declared in package [server]. *)
Variable ConsoleOutputEvent : string.

Local Abbreviation W := (World E C).

Definition on_env {A} (c : Call) (op : E -> A * E) : M W A :=
  fun w => let (a, e') := op (w_env w) in
           (a, Build_World e' (w_conn w) (w_calls w ++ [c])%list).

Definition Start : M W error := on_env CallStart env_Start.
Definition Stop : M W error := on_env CallStop env_Stop.
Definition Terminate (sig : Signal) : M W error :=
  on_env (CallTerminate sig) (env_Terminate sig).
Definition IsRunning : M W (bool * error) := on_env CallIsRunning env_IsRunning.
Definition Readlog (n : Z) : M W (list string * error) :=
  on_env (CallReadlog n) (env_Readlog n).
Definition SendCommand (line : string) : M W error :=
  on_env (CallSendCommand line) (env_SendCommand line).

(** The mutex is free again when [SendJson] returns; the write is what
    remains. *)
Definition SendJson (v : WebsocketMessage) : M W error :=
  fun w => let (err, c') := conn_WriteJSON v (w_conn w) in
           (err, Build_World (w_env w) c' (w_calls w ++ [CallWriteJSON v])%list).

Fixpoint send_lines (logs : list string) : M W unit :=
  match logs with
  | [] => ret tt
  | line :: rest =>
      (_ <- SendJson {| Event := ConsoleOutputEvent; Args := [line]; inbound := false |} ;;
       send_lines rest)%handler
  end.

Definition HandleInbound (now : Z) (wsh : WebsocketHandler) (m : WebsocketMessage)
  : M W outcome :=
  if negb (inbound m) then
    ret (Returned (Some "cannot handle websocket message, not an inbound connection"))
  else
    match TokenValid now wsh with
    | Some _ => ret (Returned None)
    | None =>
        match JWT wsh with
        | None => ret Panicked
        | Some jwt =>
            if String.eqb (Event m) SetStateEvent then
              if negb (HasPermission jwt PermissionSendPower) then ret (Returned None)
              else
                (err <- (let action := String.concat "" (Args m) in
                         if String.eqb action "start" then Start
                         else if String.eqb action "stop" then Stop
                         else if String.eqb action "restart" then ret None
                         else if String.eqb action "kill" then Terminate os_Kill
                         else ret None) ;;
                 match err with
                 | Some e => ret (Returned (Some e))
                 | None => ret (Returned None)
                 end)%handler
            else if String.eqb (Event m) SendServerLogsEvent then
              (r <- IsRunning ;;
               if negb (fst r) then ret (Returned None)
               else
                 l <- Readlog (1024 * 16) ;;
                 match snd l with
                 | Some e => ret (Returned (Some e))
                 | None => (send_lines (fst l) ;;; ret (Returned None))
                 end)%handler
            else if String.eqb (Event m) SendCommandEvent then
              if negb (HasPermission jwt PermissionSendCommand) then ret (Returned None)
              else (err <- SendCommand (String.concat "" (Args m)) ;;
                    ret (Returned err))%handler
            else ret (Returned None)
        end
    end.
End Handler.

(** How the read loop of [routeWebsocket] ends. *)
Inductive loop_end :=
| ReadError
| HandlerError (msg : string)
| LoopPanicked.

Section ReadLoop.
Context {E C : Type} `{Environment E} `{Connection C}.

Variable ConsoleOutputEvent : string.

(** [json.Unmarshal] into a [WebsocketMessage]: the event and the arguments
    of a well-formed frame. *)
Variable json_Unmarshal : list byte -> option (string * list string).

(** The [for] loop of [routeWebsocket], over the frames [ReadMessage]
    delivers before it fails, each with the clock reading at which it is
    handled.  The log lines are left out. *)
Fixpoint readLoop (handler : WebsocketHandler) (frames : list (Z * list byte))
  : M (World E C) loop_end :=
  match frames with
  | [] => ret ReadError
  | (now, p) :: rest =>
      match json_Unmarshal p with
      | None => readLoop handler rest
      | Some (event, args) =>
          let j := {| Event := event; Args := args; inbound := true |} in
          (o <- HandleInbound ConsoleOutputEvent now handler j ;;
           match o with
           | Returned None => readLoop handler rest
           | Returned (Some e) => ret (HandlerError e)
           | Panicked => ret LoopPanicked
           end)%handler
      end
  end.
End ReadLoop.
End Main.

Import Float64 Server Main.

(** ** A concrete control surface, for running the handler *)

Module Sample.

(** An environment that records the power state and the commands sent;
    stopping a stopped server fails. *)
Record env := {
  running : bool;
  commands : list string
}.

#[global] Instance sample_environment : Environment env := {
  env_Start e := (None, {| running := true; commands := commands e |});
  env_Stop e :=
    if running e then (None, {| running := false; commands := commands e |})
    else (Some "server is not running", e);
  env_Terminate _ e := (None, {| running := false; commands := commands e |});
  env_IsRunning e := ((running e, None), e);
  env_Readlog _ e := ((commands e, None), e);
  env_SendCommand line e :=
    if running e then (None, {| running := running e; commands := (commands e ++ [line])%list |})
    else (Some "server is not running", e)
}.

(** An environment that counts what is asked of it and never fails. *)
#[global] Instance counting_environment : Environment nat := {
  env_Start n := (None, S n);
  env_Stop n := (None, S n);
  env_Terminate _ n := (None, S n);
  env_IsRunning n := ((true, None), S n);
  env_Readlog _ n := (([], None), S n);
  env_SendCommand _ n := (None, S n)
}.

(** A decoder for frames of one byte: [s] asks for a stop, [l] for the
    log; every other frame is malformed. *)
Definition decode (p : list byte) : option (string * list string) :=
  match p with
  | [x73] => Some ("set state", ["stop"])
  | [x6c] => Some ("send logs", [])
  | _ => None
  end.

(** A socket that keeps the frames written to it. *)
#[global] Instance sample_connection : Connection (list WebsocketMessage) := {
  conn_WriteJSON m c := (None, (c ++ [m])%list)
}.

Definition world0 : World env (list WebsocketMessage) :=
  Build_World {| running := false; commands := [] |} [] [].

Definition token (nbf exp : Z) (perms : list string) : WebsocketTokenPayload :=
  {| Payload_ := {| NotBefore := nbf; ExpirationTime := exp |};
     UserID := "1"; ServerUUID := "srv-a"; Permissions := perms |}.

Definition handler (jwt : option WebsocketTokenPayload) : WebsocketHandler :=
  {| Server_ := {| Uuid := "srv-a" |}; JWT := jwt |}.

Definition frame (event : string) (args : list string) : WebsocketMessage :=
  {| Event := event; Args := args; inbound := true |}.

(** A verifier that accepts every token string and decodes it to [p]. *)
Definition verify_to (p : WebsocketTokenPayload) : list byte -> result WebsocketTokenPayload :=
  fun _ => Ok p.
End Sample.

(** ** Vocabulary of the statements *)

(** Every counter of the memory sample is a [uint64]. *)
Definition stats_in_range (stats : MemoryStats) : Prop :=
  Uint64.in_range (Usage stats) /\
  map_Forall (fun _ v => Uint64.in_range v) (Stats stats).

(** The first branch of [CalculateDockerMemory] is not taken: the key
    [total_inactive_file] is absent, or its value is not below the usage. *)
Definition total_not_below (stats : MemoryStats) : Prop :=
  forall v, Stats stats !! "total_inactive_file" = Some v -> Usage stats <= v.

(** The handler with the not-before timestamp of its token replaced. *)
Definition with_NotBefore (nbf : Z) (wsh : WebsocketHandler) : WebsocketHandler :=
  {| Server_ := Server_ wsh;
     JWT := option_map
              (fun jwt => {| Payload_ := {| NotBefore := nbf;
                                            ExpirationTime := ExpirationTime (Payload_ jwt) |};
                             UserID := UserID jwt; ServerUUID := ServerUUID jwt;
                             Permissions := Permissions jwt |})
              (JWT wsh) |}.

(** Whether the handler's token carries a permission; no token, no
    permission. *)
Definition holds (wsh : WebsocketHandler) (permission : string) : bool :=
  match JWT wsh with
  | Some jwt => HasPermission jwt permission
  | None => false
  end.

(** ** Vocabulary of the rounding model

    [SpecFloat] rounds a significand through a shift register that keeps a
    round bit and a sticky bit.  The statements below read such a register
    as one integer, its code: four times the significand, plus two for the
    round bit, plus one for the sticky bit.  A code at exponent [e] places a
    non-negative number on the grid of step [2^e] together with its position
    between two grid points (on the lower one, below the middle, on the
    middle, above the middle). *)

(** The code of the fraction [N / D]. *)
Definition sticky (N D : Z) : Z :=
  2 * ((2 * N) / D) + (if (2 * N) mod D =? 0 then 0 else 1).

Definition code (mrs : shr_record) : Z :=
  4 * shr_m mrs + 2 * Z.b2z (shr_r mrs) + Z.b2z (shr_s mrs).

Definition loc_code (l : location) : Z :=
  match l with
  | loc_Exact => 0
  | loc_Inexact Lt => 1
  | loc_Inexact Eq => 2
  | loc_Inexact Gt => 3
  end.

(** The code [T] read on a grid [n] bits coarser. *)
Definition down (n T : Z) : Z := sticky T (4 * 2 ^ n).

(** Round to nearest, ties to even, on a code. *)
Definition rne (U : Z) : Z :=
  U / 4 + (if (U mod 4 =? 3) || ((U mod 4 =? 2) && Z.odd (U / 4)) then 1 else 0).

(** The exponent of the input does not exceed the exponent of the format
    at the input's magnitude: rounding only shifts right. *)
Definition fine (T e : Z) : Prop := e <= fexp prec emax (Zdigits2 (T / 4) + e).

(** What [binary_round_aux] computes on a fine input: significand and
    exponent of the result. *)
Definition round_fine (T e : Z) : Z * Z :=
  let E := fexp prec emax (Zdigits2 (T / 4) + e) in
  let m1 := rne (down (E - e) T) in
  if m1 =? 2 ^ prec then (2 ^ (prec - 1), E + 1) else (m1, E).

Definition rnd_q (N D e : Z) : Z * Z := round_fine (sticky N D) e.

(** The float of a significand and exponent, with overflow to infinity. *)
Definition pack (s : bool) (me : Z * Z) : float64 :=
  match fst me with
  | Z0 => S754_zero s
  | Zpos m => if snd me <=? emax - prec then S754_finite s m (snd me)
              else S754_infinity s
  | Zneg _ => S754_nan
  end.

Definition canonical (m e : Z) : Prop := fexp prec emax (Zdigits2 m + e) = e.

(** The order of canonical positive numbers: by exponent, then by
    significand. *)
Definition lex_le (mx ex my ey : Z) : Prop := ex < ey \/ (ex = ey /\ mx <= my).

Definition pair_le (a b : Z * Z) : Prop :=
  fst a = 0 \/
  (0 < fst a /\ 0 < fst b /\ (snd a < snd b \/ (snd a = snd b /\ fst a <= fst b))).

(** Positive zero, a positive canonical number, or positive infinity. *)
Definition nonneg_float (x : float64) : Prop :=
  match x with
  | S754_zero false => True
  | S754_infinity false => True
  | S754_finite false m e => canonical (Zpos m) e /\ e <= 971
  | _ => False
  end.

Definition positive_finite (x : float64) : Prop :=
  match x with
  | S754_finite false m e => canonical (Zpos m) e /\ e <= 971
  | _ => False
  end.

(** Positive zero or a canonical number, of either sign, with its exponent
    in a given range: what the counters and their differences convert to. *)
Definition ranged (lo hi : Z) (x : float64) : Prop :=
  x = S754_zero false \/
  exists s m e, x = S754_finite s m e /\ canonical (Zpos m) e /\ lo <= e <= hi.

(** The exponent at which [SFdiv] computes its quotient. *)
Definition div_exp (mx ex my ey : Z) : Z :=
  Z.min (fexp prec emax (Zdigits2 mx + ex - (Zdigits2 my + ey))) (ex - ey).

(** The significand of [Round] with its fraction bits cleared, and the
    result of [Round] as significand and exponent. *)
Definition round_half_up (m k : Z) : Z := ((m + 2 ^ (k - 1)) / 2 ^ k) * 2 ^ k.

Definition Round_pair (m e : Z) : Z * Z :=
  if 0 <=? e then (m, e)
  else
    let d := Zdigits2 m + e in
    if d <? 0 then (0, -1074)
    else if d =? 0 then (2 ^ 52, -52)
    else
      let M := round_half_up m (- e) in
      if M =? 2 ^ 53 then (2 ^ 52, e + 1) else (M, e).

(** The percentage of [CalculateAbsoluteCpu] as a function of the two
    deltas and the CPU count, and its last line. *)
Definition percent_of (d sd c : float64) : float64 :=
  if ltb zero sd && ltb zero d then mul (mul (div d sd) c) c100 else zero.

Definition to_millis (p : float64) : float64 := div (Round (mul p c1000)) c1000.

(** The counters of a CPU sample are [uint64], the CPU count a [uint32] and
    the per-CPU list has an [int] length. *)
Definition cpu_stats_in_range (stats : CPUStats) : Prop :=
  Uint64.in_range (TotalUsage (CPUUsage_ stats)) /\
  Uint64.in_range (SystemUsage stats) /\
  0 <= OnlineCPUs stats < 2 ^ 32 /\
  Z.of_nat (length (PercpuUsage (CPUUsage_ stats))) < 2 ^ 63.

(** ** Vocabulary of the handler's effects *)

(** The calls that act on the managed process. *)
Definition acts_on_server (c : Call) : bool :=
  match c with
  | CallStart | CallStop | CallTerminate _ | CallSendCommand _ => true
  | CallIsRunning | CallReadlog _ | CallWriteJSON _ => false
  end.

(** [w'] continues [w]: the call record grew by [new]. *)
Definition called {E C : Type} (w w' : World E C) (new : list Call) : Prop :=
  w_calls w' = (w_calls w ++ new)%list.

(** A control surface none of whose operations fails. *)
Definition infallible (E : Type) `{Environment E} : Prop :=
  forall e : E,
    fst (env_Start e) = None /\
    fst (env_Stop e) = None /\
    (forall sig, fst (env_Terminate sig e) = None) /\
    (forall n, snd (fst (env_Readlog n e)) = None) /\
    (forall line, fst (env_SendCommand line e) = None).

(** The console frame of one log line, and the socket after the frames of
    a list of lines were written to it. *)
Definition console_frame (ConsoleOutputEvent line : string) : WebsocketMessage :=
  {| Event := ConsoleOutputEvent; Args := [line]; inbound := false |}.

Definition written {C : Type} `{Connection C} (ConsoleOutputEvent : string)
    (logs : list string) (c : C) : C :=
  fold_left (fun c line => snd (conn_WriteJSON (console_frame ConsoleOutputEvent line) c))
            logs c.

(** The frames the read loop can decode. *)
Definition decodable (json_Unmarshal : list byte -> option (string * list string))
    (frame : Z * list byte) : bool :=
  match json_Unmarshal (snd frame) with Some _ => true | None => false end.

(** What one call of [HandleInbound] can do to the world [w], as outcome
    and world after: refuse an outbound message, do nothing, run one power
    action, look at a stopped server, fail to read the log, dump the log, or
    send one command. *)
Inductive handles {E C : Type} `{Environment E} `{Connection C}
    (ConsoleOutputEvent : string) (wsh : WebsocketHandler) (m : WebsocketMessage)
    (w : World E C) : outcome -> World E C -> Prop :=
| handles_outbound :
    inbound m = false ->
    handles ConsoleOutputEvent wsh m w
      (Returned (Some "cannot handle websocket message, not an inbound connection")) w
| handles_nothing :
    inbound m = true ->
    handles ConsoleOutputEvent wsh m w (Returned None) w
| handles_power c r :
    inbound m = true -> Event m = SetStateEvent ->
    holds wsh PermissionSendPower = true ->
    In (c, r) [(CallStart, env_Start (w_env w)); (CallStop, env_Stop (w_env w));
               (CallTerminate os_Kill, env_Terminate os_Kill (w_env w))] ->
    handles ConsoleOutputEvent wsh m w (Returned (fst r))
      (Build_World (snd r) (w_conn w) (w_calls w ++ [c])%list)
| handles_stopped :
    inbound m = true -> Event m = SendServerLogsEvent ->
    fst (fst (env_IsRunning (w_env w))) = false ->
    handles ConsoleOutputEvent wsh m w (Returned None)
      (Build_World (snd (env_IsRunning (w_env w))) (w_conn w)
         (w_calls w ++ [CallIsRunning])%list)
| handles_log_error e :
    inbound m = true -> Event m = SendServerLogsEvent ->
    fst (fst (env_IsRunning (w_env w))) = true ->
    snd (fst (env_Readlog (1024 * 16) (snd (env_IsRunning (w_env w))))) = Some e ->
    handles ConsoleOutputEvent wsh m w (Returned (Some e))
      (Build_World (snd (env_Readlog (1024 * 16) (snd (env_IsRunning (w_env w)))))
         (w_conn w) (w_calls w ++ [CallIsRunning; CallReadlog (1024 * 16)])%list)
| handles_logs :
    inbound m = true -> Event m = SendServerLogsEvent ->
    fst (fst (env_IsRunning (w_env w))) = true ->
    snd (fst (env_Readlog (1024 * 16) (snd (env_IsRunning (w_env w))))) = None ->
    handles ConsoleOutputEvent wsh m w (Returned None)
      (Build_World (snd (env_Readlog (1024 * 16) (snd (env_IsRunning (w_env w)))))
         (written ConsoleOutputEvent
            (fst (fst (env_Readlog (1024 * 16) (snd (env_IsRunning (w_env w))))))
            (w_conn w))
         (w_calls w ++ [CallIsRunning; CallReadlog (1024 * 16)] ++
          map (fun line => CallWriteJSON (console_frame ConsoleOutputEvent line))
              (fst (fst (env_Readlog (1024 * 16) (snd (env_IsRunning (w_env w)))))))%list)
| handles_command :
    inbound m = true -> Event m = SendCommandEvent ->
    holds wsh PermissionSendCommand = true ->
    handles ConsoleOutputEvent wsh m w
      (Returned (fst (env_SendCommand (String.concat "" (Args m)) (w_env w))))
      (Build_World (snd (env_SendCommand (String.concat "" (Args m)) (w_env w)))
         (w_conn w)
         (w_calls w ++ [CallSendCommand (String.concat "" (Args m))])%list).

(** Positive zero or a positive canonical number with exponent at most
    [hi]. *)
Definition bounded_nonneg (hi : Z) (x : float64) : Prop :=
  x = S754_zero false \/
  exists m e, x = S754_finite false m e /\ canonical (Zpos m) e /\ e <= hi.

(** * Properties *)

Ltac pow2_pos := apply Z.pow_pos_nonneg; lia.

(** ** Machine integers *)

Lemma Uint64_sub_exact a b :
  Uint64.in_range a -> 0 <= b -> b <= a -> Uint64.sub a b = a - b.
Proof.
  unfold Uint64.in_range, Uint64.sub, Uint64.wrap, Uint64.modulus.
  intros Ha Hb Hle. apply Z.mod_small. lia.
Qed.

Lemma Int64_wrap_small x : Int64.in_range x -> Int64.wrap x = x.
Proof.
  unfold Int64.in_range, Int64.min_int, Int64.max_int, Int64.wrap. intros Hx.
  rewrite Z.mod_small by lia. lia.
Qed.

(** The [int64] difference is the integer difference whenever that one is
    representable, in particular for any two non-negative timestamps. *)
Lemma Int64_sub_exact a b : Int64.in_range (a - b) -> Int64.sub a b = a - b.
Proof. apply Int64_wrap_small. Qed.

Lemma Int64_sub_offset a k : Int64.in_range k -> Int64.sub a (a - k) = k.
Proof.
  intros Hk. unfold Int64.sub. replace (a - (a - k)) with k by lia.
  now apply Int64_wrap_small.
Qed.

(** ** Resource usage *)

Section ResourceUsageFacts.
Variable ru : ResourceUsage.

Lemma Empty_eq :
  Empty ru =
  {| Memory := 0; MemoryLimit := MemoryLimit ru; CpuAbsolute := zero;
     Disk := Disk ru; Network := {| RxBytes := 0; TxBytes := 0 |} |}.
Proof. reflexivity. Qed.

(** C6: whatever the prior state, [Empty] sets the memory bytes, the
    absolute CPU percent and the network receive and transmit bytes to
    zero, and the disk bytes keep their prior value. *)
Theorem Empty_zeroes_live_fields :
  Memory (Empty ru) = 0 /\
  CpuAbsolute (Empty ru) = zero /\
  RxBytes (Network (Empty ru)) = 0 /\
  TxBytes (Network (Empty ru)) = 0 /\
  Disk (Empty ru) = Disk ru.
Proof. rewrite Empty_eq. repeat split. Qed.

(** C10: whatever the prior state, [Empty] leaves [MemoryLimit] unchanged,
    as it does the disk field; the fields it changes are exactly the
    memory, the CPU and the two network counters, which become zero. *)
Theorem Empty_keeps_MemoryLimit :
  MemoryLimit (Empty ru) = MemoryLimit ru /\
  Disk (Empty ru) = Disk ru /\
  Empty ru =
  {| Memory := 0; MemoryLimit := MemoryLimit ru; CpuAbsolute := zero;
     Disk := Disk ru; Network := {| RxBytes := 0; TxBytes := 0 |} |}.
Proof. rewrite Empty_eq. repeat split. Qed.
End ResourceUsageFacts.

(** ** Adjusted memory *)

Lemma map_get_in_range (m : gmap string Z) k :
  map_Forall (fun _ v => Uint64.in_range v) m -> Uint64.in_range (map_get m k).
Proof.
  intros Hm. unfold map_get. destruct (m !! k) as [v|] eqn:Hk; simpl.
  - exact (Hm k v Hk).
  - unfold Uint64.in_range, Uint64.modulus. lia.
Qed.

Section DockerMemory.
Variables (ru : ResourceUsage) (stats : MemoryStats).
Hypothesis Hrange : stats_in_range stats.

Let usage := Usage stats.
Let total := Stats stats !! "total_inactive_file".
Let inactive := map_get (Stats stats) "inactive_file".

Lemma docker_memory_total v :
  total = Some v -> v < usage -> CalculateDockerMemory ru stats = usage - v.
Proof.
  subst total usage. intros Hv Hlt. unfold CalculateDockerMemory. rewrite Hv.
  apply Z.ltb_lt in Hlt as Hb. rewrite Hb.
  destruct Hrange as [Hu Hm]. apply Uint64_sub_exact; auto; [|lia].
  apply (Hm _ _ Hv).
Qed.

Lemma docker_memory_inactive :
  total_not_below stats -> inactive < usage ->
  CalculateDockerMemory ru stats = usage - inactive.
Proof.
  unfold total_not_below. subst total usage inactive. intros Hnb Hlt.
  destruct Hrange as [Hu Hm]. pose proof (map_get_in_range _ "inactive_file" Hm) as Hi.
  unfold CalculateDockerMemory.
  apply Z.ltb_lt in Hlt as Hb.
  destruct (Stats stats !! "total_inactive_file") as [v|] eqn:Hv.
  - specialize (Hnb v eq_refl). apply Z.ltb_ge in Hnb. rewrite Hnb. cbv zeta.
    rewrite Hb. apply Uint64_sub_exact; auto; [apply Hi | lia].
  - cbv zeta. rewrite Hb. apply Uint64_sub_exact; auto; [apply Hi | lia].
Qed.

Lemma docker_memory_raw :
  total_not_below stats -> usage <= inactive -> CalculateDockerMemory ru stats = usage.
Proof.
  unfold total_not_below. subst total usage inactive. intros Hnb Hge.
  unfold CalculateDockerMemory. apply Z.ltb_ge in Hge.
  destruct (Stats stats !! "total_inactive_file") as [v|] eqn:Hv.
  - specialize (Hnb v eq_refl). apply Z.ltb_ge in Hnb. rewrite Hnb. cbv zeta.
    now rewrite Hge.
  - cbv zeta. now rewrite Hge.
Qed.

(** C4: [CalculateDockerMemory] is the usage less [total_inactive_file]
    when that key is present with a value strictly below the usage;
    otherwise the usage less [inactive_file] when that value is strictly
    below the usage; otherwise the raw usage.  So when both values are at
    least the usage the raw usage comes back, and the result never
    underflows: it lies between zero and the raw usage. *)
Theorem CalculateDockerMemory_spec :
  (forall v, total = Some v -> v < usage ->
             CalculateDockerMemory ru stats = usage - v) /\
  (total_not_below stats -> inactive < usage ->
   CalculateDockerMemory ru stats = usage - inactive) /\
  (total_not_below stats -> usage <= inactive ->
   CalculateDockerMemory ru stats = usage) /\
  (usage <= map_get (Stats stats) "total_inactive_file" -> usage <= inactive ->
   CalculateDockerMemory ru stats = usage) /\
  0 <= CalculateDockerMemory ru stats <= usage.
Proof.
  split; [exact docker_memory_total|].
  split; [exact docker_memory_inactive|].
  split; [exact docker_memory_raw|].
  destruct Hrange as [Hu Hm].
  pose proof (map_get_in_range _ "inactive_file" Hm) as Hi.
  assert (Hcases : total_not_below stats \/ exists v, total = Some v /\ v < usage).
  { unfold total_not_below. fold total usage. destruct total as [v|] eqn:Hv.
    - destruct (Z_lt_le_dec v usage); [right; eauto | left].
      intros v' [= <-]. lia.
    - left. discriminate. }
  split.
  - intros Hge1 Hge2. destruct Hcases as [Hnb | (v & Hv & Hlt)].
    + now apply docker_memory_raw.
    + exfalso. unfold map_get in Hge1. subst total. rewrite Hv in Hge1.
      simpl in Hge1. lia.
  - unfold Uint64.in_range in *. fold usage in Hu. fold inactive in Hi.
    destruct Hcases as [Hnb | (v & Hv & Hlt)].
    + destruct (Z_lt_le_dec inactive usage).
      * rewrite docker_memory_inactive by auto. lia.
      * rewrite docker_memory_raw by auto. lia.
    + rewrite (docker_memory_total v) by auto.
      pose proof (Hm _ _ Hv) as Hv'. unfold Uint64.in_range in Hv'. lia.
Qed.
End DockerMemory.

(** A sample with 100 bytes in use, 30 of them inactive file pages by the
    total counter: 70 are reported. *)
Lemma CalculateDockerMemory_spec_witness :
  let ru := {| Memory := 0; MemoryLimit := 0; CpuAbsolute := zero; Disk := 0;
               Network := {| RxBytes := 0; TxBytes := 0 |} |} in
  let stats := {| Usage := 100;
                  Stats := <["total_inactive_file" := 30]> {["inactive_file" := 20]} |} in
  CalculateDockerMemory ru stats = 70.
Proof.
  intros ru stats.
  assert (Hrange : stats_in_range stats).
  { split; [unfold Uint64.in_range, Uint64.modulus; simpl; lia |].
    simpl. apply map_Forall_insert_2; [| apply map_Forall_singleton];
      unfold Uint64.in_range, Uint64.modulus; lia. }
  destruct (CalculateDockerMemory_spec ru stats Hrange) as (Htotal & _).
  apply (Htotal 30); [reflexivity | simpl; lia].
Defined.

(** The fallback counter is used when the total one is absent, and the raw
    usage when neither counter is below it. *)
Example CalculateDockerMemory_fallback :
  CalculateDockerMemory (Empty {| Memory := 1; MemoryLimit := 2; CpuAbsolute := zero;
                                  Disk := 3; Network := {| RxBytes := 4; TxBytes := 5 |} |})
    {| Usage := 100; Stats := {["inactive_file" := 20]} |} = 80.
Proof. reflexivity. Qed.

Example CalculateDockerMemory_raw :
  CalculateDockerMemory (Empty {| Memory := 1; MemoryLimit := 2; CpuAbsolute := zero;
                                  Disk := 3; Network := {| RxBytes := 4; TxBytes := 5 |} |})
    {| Usage := 100;
       Stats := <["total_inactive_file" := 100]> {["inactive_file" := 250]} |} = 100.
Proof. reflexivity. Qed.

(** ** Absolute CPU: the guard *)

(** [Round] on a few numbers: 2.5, 0.5, 0.49, 7 and 1234.5678. *)
Example Round_samples :
  Round (div (of_Z 5) (of_Z 2)) = of_Z 3 /\
  Round (div (of_Z 1) (of_Z 2)) = of_Z 1 /\
  Round (div (of_Z 49) (of_Z 100)) = zero /\
  Round (of_Z 7) = of_Z 7 /\
  Round (div (of_Z 12345678) (of_Z 10000)) = of_Z 1235.
Proof. repeat split; vm_compute; reflexivity. Qed.

(** 123 units of CPU time out of 1000 on four CPUs are 49.2 percent. *)
Example CalculateAbsoluteCpu_sample :
  CalculateAbsoluteCpu
    {| Memory := 0; MemoryLimit := 0; CpuAbsolute := zero; Disk := 0;
       Network := {| RxBytes := 0; TxBytes := 0 |} |}
    {| CPUUsage_ := {| TotalUsage := 100; PercpuUsage := [] |};
       SystemUsage := 1000; OnlineCPUs := 4 |}
    {| CPUUsage_ := {| TotalUsage := 223; PercpuUsage := [] |};
       SystemUsage := 2000; OnlineCPUs := 4 |}
  = div (of_Z 492) (of_Z 10).
Proof. vm_compute. reflexivity. Qed.

(** With no online count the per-CPU list gives the number of CPUs. *)
Example CalculateAbsoluteCpu_percpu_fallback :
  CalculateAbsoluteCpu
    {| Memory := 0; MemoryLimit := 0; CpuAbsolute := zero; Disk := 0;
       Network := {| RxBytes := 0; TxBytes := 0 |} |}
    {| CPUUsage_ := {| TotalUsage := 0; PercpuUsage := [0; 0] |};
       SystemUsage := 0; OnlineCPUs := 0 |}
    {| CPUUsage_ := {| TotalUsage := 1; PercpuUsage := [1; 0] |};
       SystemUsage := 3; OnlineCPUs := 0 |}
  = div (of_Z 66667) (of_Z 1000).
Proof. vm_compute. reflexivity. Qed.

Lemma ltb_zero_false_of_leb x : leb x zero = true -> ltb zero x = false.
Proof.
  unfold leb, ltb, SFleb, SFltb, zero.
  destruct x as [s | s | | s m e]; simpl; try reflexivity; destruct s;
    simpl; congruence.
Qed.

Lemma percent_guard_false pStats stats :
  ltb zero (systemDelta pStats stats) && ltb zero (cpuDelta pStats stats) = false ->
  percent pStats stats = zero.
Proof. unfold percent. now intros ->. Qed.

Lemma CalculateAbsoluteCpu_of_zero_percent ru pStats stats :
  percent pStats stats = zero -> CalculateAbsoluteCpu ru pStats stats = zero.
Proof. unfold CalculateAbsoluteCpu. intros ->. reflexivity. Qed.

(** ** Tokens *)

Lemma HasPermission_In wtp p :
  HasPermission wtp p = true <-> In p (Permissions wtp).
Proof.
  unfold HasPermission. induction (Permissions wtp) as [|k ks IH]; simpl.
  - split; [discriminate | tauto].
  - destruct (String.eqb_spec k p) as [-> | Hne].
    + split; auto.
    + rewrite IH. split; [auto | intros [Hk | Hin]; [contradiction | exact Hin]].
Qed.

Section ParseJWTFacts.
Variable jwt_Verify : list byte -> result WebsocketTokenPayload.
Variables (token : list byte) (payload : WebsocketTokenPayload).
Hypothesis Hverify : jwt_Verify token = Ok payload.

Let nbf := NotBefore (Payload_ payload).
Let exp := ExpirationTime (Payload_ payload).

Lemma ParseJWT_accepts now1 now2 :
  -15 < Int64.sub now1 nbf -> Int64.sub now2 exp <= 15 ->
  HasPermission payload PermissionConnect = true ->
  ParseJWT jwt_Verify now1 now2 token = Ok payload.
Proof.
  subst nbf exp. intros Hn He Hc. unfold ParseJWT. rewrite Hverify.
  destruct (Z.leb_spec (Int64.sub now1 (NotBefore (Payload_ payload))) (-15)); [lia|].
  destruct (Z.gtb_spec (Int64.sub now2 (ExpirationTime (Payload_ payload))) 15); [lia|].
  now rewrite Hc.
Qed.

Lemma ParseJWT_rejects_nbf now1 now2 :
  Int64.sub now1 nbf <= -15 ->
  ParseJWT jwt_Verify now1 now2 token = Err "jwt violates nbf".
Proof.
  subst nbf. intros Hn. unfold ParseJWT. rewrite Hverify.
  destruct (Z.leb_spec (Int64.sub now1 (NotBefore (Payload_ payload))) (-15)); [reflexivity | lia].
Qed.

Lemma ParseJWT_rejects_exp now1 now2 :
  -15 < Int64.sub now1 nbf -> 15 < Int64.sub now2 exp ->
  ParseJWT jwt_Verify now1 now2 token = Err "jwt violates exp".
Proof.
  subst nbf exp. intros Hn He. unfold ParseJWT. rewrite Hverify.
  destruct (Z.leb_spec (Int64.sub now1 (NotBefore (Payload_ payload))) (-15)); [lia|].
  destruct (Z.gtb_spec (Int64.sub now2 (ExpirationTime (Payload_ payload))) 15); [reflexivity | lia].
Qed.

(** C1, as the code has it: with the signature verified, the not-before
    check passed and the connect permission held, an expiration exactly 15
    seconds before the clock reading is accepted and one 16 seconds before
    is rejected; a not-before 16 seconds after the clock reading is
    rejected, and so is a not-before exactly 15 seconds after it: the
    not-before test is [<= -15] where the expiration test is [> 15]. *)
Theorem ParseJWT_boundaries now1 now2 :
  (exp = now2 - 15 -> -15 < Int64.sub now1 nbf ->
   HasPermission payload PermissionConnect = true ->
   ParseJWT jwt_Verify now1 now2 token = Ok payload) /\
  (exp = now2 - 16 -> -15 < Int64.sub now1 nbf ->
   ParseJWT jwt_Verify now1 now2 token = Err "jwt violates exp") /\
  (nbf = now1 + 16 ->
   ParseJWT jwt_Verify now1 now2 token = Err "jwt violates nbf") /\
  (nbf = now1 + 15 ->
   ParseJWT jwt_Verify now1 now2 token = Err "jwt violates nbf").
Proof.
  assert (Hoff : forall a k, Int64.in_range k -> Int64.sub a (a - k) = k)
    by apply Int64_sub_offset.
  assert (Hr : forall k, -100 <= k <= 100 -> Int64.in_range k).
  { unfold Int64.in_range, Int64.min_int, Int64.max_int. lia. }
  repeat split.
  - intros He Hn Hc. apply ParseJWT_accepts; auto.
    rewrite He, Hoff by (apply Hr; lia). lia.
  - intros He Hn. apply ParseJWT_rejects_exp; auto.
    rewrite He, Hoff by (apply Hr; lia). lia.
  - intros Hn. apply ParseJWT_rejects_nbf.
    rewrite Hn. replace (now1 + 16) with (now1 - (-16)) by lia.
    rewrite Hoff by (apply Hr; lia). lia.
  - intros Hn. apply ParseJWT_rejects_nbf.
    rewrite Hn. replace (now1 + 15) with (now1 - (-15)) by lia.
    rewrite Hoff by (apply Hr; lia). lia.
Qed.
End ParseJWTFacts.

(** A token that becomes valid in exactly 15 seconds, presented at second
    1000 with an hour to live and the connect permission, is refused. *)
Lemma ParseJWT_boundaries_witness :
  let p := Sample.token 1015 4600 ["connect"] in
  ParseJWT (Sample.verify_to p) 1000 1000 [] = Err "jwt violates nbf".
Proof.
  intros p.
  apply (ParseJWT_boundaries (Sample.verify_to p) [] p eq_refl 1000 1000).
  reflexivity.
Defined.

(** ** Revalidation *)

Lemma TokenValid_no_jwt now wsh :
  JWT wsh = None -> TokenValid now wsh = Some "no jwt present".
Proof. unfold TokenValid. now intros ->. Qed.

Lemma TokenValid_nil_iff now wsh jwt :
  JWT wsh = Some jwt ->
  (TokenValid now wsh = None <->
   Int64.sub now (ExpirationTime (Payload_ jwt)) <= 15 /\
   HasPermission jwt PermissionConnect = true /\
   Uuid (Server_ wsh) = ServerUUID jwt).
Proof.
  intros Hj. unfold TokenValid. rewrite Hj.
  destruct (Z.gtb_spec (Int64.sub now (ExpirationTime (Payload_ jwt))) 15) as [He | He].
  { split; [discriminate | intros (Hle & _); lia]. }
  destruct (HasPermission jwt PermissionConnect); simpl.
  2: { split; [discriminate | intros (_ & Hc & _); discriminate]. }
  destruct (String.eqb_spec (Uuid (Server_ wsh)) (ServerUUID jwt)) as [Hu | Hu]; simpl.
  - split; [intros _; split; [lia | split; [reflexivity | exact Hu]] | reflexivity].
  - split; [discriminate | intros (_ & _ & Hu'); contradiction].
Qed.

Lemma TokenValid_some_jwt now wsh :
  TokenValid now wsh = None -> exists jwt, JWT wsh = Some jwt.
Proof.
  unfold TokenValid. destruct (JWT wsh) as [jwt|]; [eauto | discriminate].
Qed.

Lemma TokenValid_ignores_NotBefore now nbf wsh :
  TokenValid now (with_NotBefore nbf wsh) = TokenValid now wsh.
Proof.
  unfold TokenValid, with_NotBefore. simpl. now destruct (JWT wsh).
Qed.

(** The error paths of [TokenValid] one by one: no token, or a token that
    is expired, lacks the connect permission or names another server. *)
Lemma TokenValid_error_cases now wsh :
  TokenValid now wsh <> None <->
  JWT wsh = None \/
  exists jwt, JWT wsh = Some jwt /\
    (Int64.sub now (ExpirationTime (Payload_ jwt)) > 15 \/
     HasPermission jwt PermissionConnect = false \/
     Uuid (Server_ wsh) <> ServerUUID jwt).
Proof.
  destruct (JWT wsh) as [jwt|] eqn:Hj.
  - pose proof (TokenValid_nil_iff now wsh jwt Hj) as Hiff. split.
    + intros Herr. right. exists jwt. split; [reflexivity|].
      destruct (Z_le_gt_dec (Int64.sub now (ExpirationTime (Payload_ jwt))) 15) as [He|He];
        [| left; lia].
      destruct (HasPermission jwt PermissionConnect) eqn:Hc; [| right; left; reflexivity].
      right; right. intros Hu. apply Herr, Hiff. auto.
    + intros [Hnone | (jwt' & [= <-] & Hwhy)] Hnil; [discriminate|].
      apply Hiff in Hnil as (He & Hc & Hu).
      destruct Hwhy as [H | [H | H]]; [lia | congruence | contradiction].
  - split; [auto | intros _]. rewrite TokenValid_no_jwt by exact Hj. discriminate.
Qed.

(** C2: for every handler state, [TokenValid] returns an error if and only
    if the token is expired beyond the 15 second tolerance
    ([now - expiration > 15], as the code subtracts), or the connect
    permission is absent (a handler without a token holds no permission),
    or the token's server identifier differs from the bound server's.  The
    not-before timestamp is never read: replacing it changes nothing.  While
    the distance to the expiration fits [int64] the first case is the plain
    inequality [now - expiration > 15]. *)
Theorem TokenValid_error_iff now wsh :
  (TokenValid now wsh <> None <->
   (exists jwt, JWT wsh = Some jwt /\
      Int64.sub now (ExpirationTime (Payload_ jwt)) > 15) \/
   holds wsh PermissionConnect = false \/
   (exists jwt, JWT wsh = Some jwt /\ Uuid (Server_ wsh) <> ServerUUID jwt)) /\
  (forall nbf, TokenValid now (with_NotBefore nbf wsh) = TokenValid now wsh) /\
  (forall jwt, JWT wsh = Some jwt ->
     Int64.in_range (now - ExpirationTime (Payload_ jwt)) ->
     (TokenValid now wsh <> None <->
      now - ExpirationTime (Payload_ jwt) > 15 \/
      HasPermission jwt PermissionConnect = false \/
      Uuid (Server_ wsh) <> ServerUUID jwt)).
Proof.
  split; [| split; [intros nbf; apply TokenValid_ignores_NotBefore |]].
  - rewrite TokenValid_error_cases. unfold holds. split.
    + intros [Hnone | (jwt & Hj & [He | [Hc | Hu]])].
      * right; left. now rewrite Hnone.
      * left. eauto.
      * right; left. now rewrite Hj.
      * right; right. eauto.
    + intros [(jwt & Hj & He) | [Hc | (jwt & Hj & Hu)]].
      * right. eauto.
      * destruct (JWT wsh) as [jwt|]; [right; eauto | left; reflexivity].
      * right. eauto.
  - intros jwt Hj Hr. rewrite TokenValid_error_cases.
    rewrite <- (Int64_sub_exact now (ExpirationTime (Payload_ jwt)) Hr). split.
    + intros [Hnone | (jwt' & Hj' & Hwhy)]; [congruence|].
      rewrite Hj in Hj'. injection Hj' as <-. exact Hwhy.
    + intros Hwhy. right. eauto.
Qed.

(** A token that expired an hour ago, checked by the plain inequality. *)
Lemma TokenValid_error_iff_witness :
  TokenValid 5000 (Sample.handler (Some (Sample.token 0 1400 ["connect"]))) <> None.
Proof.
  apply (proj2 (proj2 (TokenValid_error_iff 5000
                         (Sample.handler (Some (Sample.token 0 1400 ["connect"])))))
           (Sample.token 0 1400 ["connect"]) eq_refl).
  - unfold Int64.in_range, Int64.min_int, Int64.max_int. simpl. lia.
  - left. simpl. lia.
Defined.

(** A handler without a token is refused; it holds no permission, the
    connect permission included. *)
Example TokenValid_without_token :
  let wsh := Sample.handler None in
  TokenValid 1000 wsh = Some "no jwt present" /\ holds wsh PermissionConnect = false.
Proof. split; reflexivity. Qed.

(** A token that is not yet valid passes revalidation. *)
Lemma TokenValid_future_NotBefore :
  TokenValid 1000 (Sample.handler (Some (Sample.token 5000 9000 ["connect"]))) = None.
Proof. reflexivity. Qed.

(** A token for another server is refused, though fresh and fully
    permissioned. *)
Lemma TokenValid_other_server :
  TokenValid 1000
    {| Server_ := {| Uuid := "srv-b" |};
       JWT := Some (Sample.token 0 9000 ["connect"; "send-command"; "send-power"]) |}
  = Some "jwt server uuid mismatch".
Proof. reflexivity. Qed.

(** ** Dispatch *)

Section HandleInboundFacts.
Context {E C : Type} `{Environment E} `{Connection C}.
Variable ConsoleOutputEvent : string.
Variables (now : Z) (wsh : WebsocketHandler) (m : WebsocketMessage).
Variable w : World E C.

(** C9: a message whose inbound flag is false is refused with an error at
    once: the result does not depend on the clock or the handler's token,
    and the world, with its record of control-surface calls, is untouched. *)
Theorem HandleInbound_outbound_refused :
  inbound m = false ->
  HandleInbound ConsoleOutputEvent now wsh m w =
  (Returned (Some "cannot handle websocket message, not an inbound connection"), w).
Proof. unfold HandleInbound. now intros ->. Qed.

(** C3: for an inbound message, if [TokenValid] fails, or the message is a
    set-state event and the token lacks the send-power permission, or it is
    a send-command event and the token lacks the send-command permission,
    [HandleInbound] returns nil and leaves the world as it was: nothing is
    asked of the control surface. *)
Theorem HandleInbound_rejected_silently :
  inbound m = true ->
  TokenValid now wsh <> None \/
  (Event m = SetStateEvent /\ holds wsh PermissionSendPower = false) \/
  (Event m = SendCommandEvent /\ holds wsh PermissionSendCommand = false) ->
  HandleInbound ConsoleOutputEvent now wsh m w = (Returned None, w).
Proof.
  intros Hin Hwhy. unfold HandleInbound. rewrite Hin. simpl.
  destruct (TokenValid now wsh) as [e|] eqn:Hv; [reflexivity|].
  destruct (TokenValid_some_jwt _ _ Hv) as [jwt Hj].
  unfold holds in Hwhy. rewrite Hj in *.
  destruct Hwhy as [Hbad | [[Hev Hp] | [Hev Hp]]].
  - contradiction.
  - rewrite Hev, String.eqb_refl, Hp. reflexivity.
  - rewrite Hev, Hp. reflexivity.
Qed.

(** X20: [wsh.JWT] is never dereferenced while nil.  For a handler bound
    to a server, whose token, when there is one, carries its expiration
    time (the handlers the model has), the uses of [wsh.JWT] behind the
    [TokenValid] gate are reached only with a token present: without a
    token [TokenValid] fails first.  [Panicked] stands for that dereference
    and is never the outcome. *)
Lemma HandleInbound_returns :
  exists err, fst (HandleInbound ConsoleOutputEvent now wsh m w) = Returned err.
Proof.
  unfold HandleInbound.
  destruct (inbound m); cbn [negb]; [|eexists; reflexivity].
  destruct (TokenValid now wsh) as [e|] eqn:Hv; [eexists; reflexivity|].
  destruct (TokenValid_some_jwt _ _ Hv) as [jwt ->].
  destruct (String.eqb (Event m) SetStateEvent).
  { destruct (HasPermission jwt PermissionSendPower); cbn [negb]; [|eexists; reflexivity].
    unfold bind.
    destruct ((if String.eqb (String.concat "" (Args m)) "start" then Start
               else if String.eqb (String.concat "" (Args m)) "stop" then Stop
               else if String.eqb (String.concat "" (Args m)) "restart" then ret None
               else if String.eqb (String.concat "" (Args m)) "kill" then Terminate os_Kill
               else ret None) w) as [[e|] w']; eexists; reflexivity. }
  destruct (String.eqb (Event m) SendServerLogsEvent).
  { unfold bind. destruct (IsRunning w) as [[running e] w1]. cbn [fst].
    destruct running; cbn [negb]; [|eexists; reflexivity].
    destruct (Readlog (1024 * 16) w1) as [[logs [e'|]] w2]; cbn [fst snd];
      [eexists; reflexivity|].
    destruct (send_lines ConsoleOutputEvent logs w2). eexists; reflexivity. }
  destruct (String.eqb (Event m) SendCommandEvent); [|eexists; reflexivity].
  destruct (HasPermission jwt PermissionSendCommand); cbn [negb]; [|eexists; reflexivity].
  unfold bind. destruct (SendCommand (String.concat "" (Args m)) w). eexists; reflexivity.
Qed.

(** C7, amended: for an inbound set-state message handled while
    [TokenValid] succeeds, from a token holding the send-power permission,
    the arguments joined without separator select the action: [start] calls
    Start, [stop] calls Stop, [kill] calls Terminate with the kill signal,
    each exactly once, and what the call returns, error or nil, is what
    [HandleInbound] returns; [restart] and every other value call nothing
    and return nil. *)
Theorem HandleInbound_set_state jwt :
  inbound m = true ->
  TokenValid now wsh = None ->
  JWT wsh = Some jwt ->
  HasPermission jwt PermissionSendPower = true ->
  Event m = SetStateEvent ->
  let action := String.concat "" (Args m) in
  let after (c : Call) (r : error * E) :=
    (Returned (fst r), Build_World (snd r) (w_conn w) (w_calls w ++ [c])%list) in
  (action = "start" -> HandleInbound ConsoleOutputEvent now wsh m w = after CallStart (env_Start (w_env w))) /\
  (action = "stop" -> HandleInbound ConsoleOutputEvent now wsh m w = after CallStop (env_Stop (w_env w))) /\
  (action = "kill" ->
   HandleInbound ConsoleOutputEvent now wsh m w = after (CallTerminate os_Kill) (env_Terminate os_Kill (w_env w))) /\
  (action = "restart" -> HandleInbound ConsoleOutputEvent now wsh m w = (Returned None, w)) /\
  (action <> "start" -> action <> "stop" -> action <> "restart" ->
   action <> "kill" -> HandleInbound ConsoleOutputEvent now wsh m w = (Returned None, w)).
Proof.
  intros Hin Hv Hj Hp Hev action after.
  assert (Hstep : forall (c : Call) (op : E -> error * E),
            bind (on_env c op)
                 (fun err => match err with
                             | Some e => ret (Returned (Some e))
                             | None => ret (Returned None)
                             end) w = after c (op (w_env w))).
  { intros c op. unfold bind, on_env, after, ret.
    destruct (op (w_env w)) as [[e|] e']; reflexivity. }
  assert (Hbody : HandleInbound ConsoleOutputEvent now wsh m w =
            bind (if String.eqb action "start" then Start
                  else if String.eqb action "stop" then Stop
                  else if String.eqb action "restart" then ret None
                  else if String.eqb action "kill" then Terminate os_Kill
                  else ret None)
                 (fun err => match err with
                             | Some e => ret (Returned (Some e))
                             | None => ret (Returned None)
                             end) w).
  { unfold HandleInbound. rewrite Hin, Hv, Hj, Hev, String.eqb_refl, Hp. reflexivity. }
  rewrite Hbody. repeat split.
  - intros ->. apply Hstep.
  - intros ->. apply Hstep.
  - intros ->. apply Hstep.
  - intros ->. reflexivity.
  - intros H1 H2 H3 H4.
    apply String.eqb_neq in H1, H2, H3, H4. rewrite H1, H2, H3, H4. reflexivity.
Qed.
End HandleInboundFacts.

(** An outbound frame handed to the handler. *)
Lemma HandleInbound_outbound_refused_witness :
  HandleInbound "console output" 1000
    (Sample.handler (Some (Sample.token 0 9000 ["connect"; "send-power"])))
    {| Event := "set state"; Args := ["start"]; inbound := false |} Sample.world0 =
  (Returned (Some "cannot handle websocket message, not an inbound connection"),
   Sample.world0).
Proof.
  apply (HandleInbound_outbound_refused "console output" 1000
           (Sample.handler (Some (Sample.token 0 9000 ["connect"; "send-power"])))
           {| Event := "set state"; Args := ["start"]; inbound := false |}
           Sample.world0).
  reflexivity.
Defined.

(** A connection with only the connect permission sends a command. *)
Lemma HandleInbound_rejected_silently_witness :
  HandleInbound "console output" 1000
    (Sample.handler (Some (Sample.token 0 9000 ["connect"])))
    (Sample.frame "send command" ["say hi"]) Sample.world0 =
  (Returned None, Sample.world0).
Proof.
  apply (HandleInbound_rejected_silently "console output" 1000
           (Sample.handler (Some (Sample.token 0 9000 ["connect"])))
           (Sample.frame "send command" ["say hi"]) Sample.world0).
  - reflexivity.
  - right; right. split; reflexivity.
Defined.

(** A running server dumps its log, one frame per line, in order. *)
Example HandleInbound_send_logs :
  let w := Build_World {| Sample.running := true; Sample.commands := ["a"; "b"] |} [] [] in
  HandleInbound "console output" 1000
    (Sample.handler (Some (Sample.token 0 9000 ["connect"])))
    (Sample.frame "send logs" []) w =
  (Returned None,
   Build_World {| Sample.running := true; Sample.commands := ["a"; "b"] |}
     [{| Event := "console output"; Args := ["a"]; inbound := false |};
      {| Event := "console output"; Args := ["b"]; inbound := false |}]
     [CallIsRunning; CallReadlog 16384;
      CallWriteJSON {| Event := "console output"; Args := ["a"]; inbound := false |};
      CallWriteJSON {| Event := "console output"; Args := ["b"]; inbound := false |}]).
Proof. reflexivity. Qed.

(** A command to a stopped server fails, and the error comes back. *)
Example HandleInbound_send_command_error :
  HandleInbound "console output" 1000
    (Sample.handler (Some (Sample.token 0 9000 ["connect"; "send-command"])))
    (Sample.frame "send command" ["say "; "hi"]) Sample.world0 =
  (Returned (Some "server is not running"),
   Build_World {| Sample.running := false; Sample.commands := [] |} []
     [CallSendCommand "say hi"]).
Proof. reflexivity. Qed.

(** C7 as stated fails once the token has expired: the send-power
    permission is held and the joined argument is [start], yet Start is not
    called. *)
Lemma HandleInbound_expired_token_no_Start :
  let wsh := Sample.handler (Some (Sample.token 0 100 ["connect"; "send-power"])) in
  let m := Sample.frame "set state" ["start"] in
  let after := snd (HandleInbound "console output" 1000 wsh m Sample.world0) in
  inbound m = true /\ Event m = SetStateEvent /\
  holds wsh PermissionSendPower = true /\
  String.concat "" (Args m) = "start" /\
  w_calls after = [] /\
  ~ In CallStart (w_calls after).
Proof. vm_compute. repeat split; auto. Qed.

(** The kill frame of a power user reaches Terminate once. *)
Lemma HandleInbound_set_state_witness :
  let wsh := Sample.handler (Some (Sample.token 0 9000 ["connect"; "send-power"])) in
  let m := Sample.frame "set state" ["kill"] in
  HandleInbound "console output" 1000 wsh m Sample.world0 =
  (Returned None,
   Build_World {| Sample.running := false; Sample.commands := [] |} []
     [CallTerminate os_Kill]).
Proof.
  intros wsh m.
  destruct (HandleInbound_set_state "console output" 1000 wsh m Sample.world0
              (Sample.token 0 9000 ["connect"; "send-power"])
              eq_refl eq_refl eq_refl eq_refl eq_refl) as (_ & _ & Hkill & _).
  exact (Hkill eq_refl).
Defined.

(** ** Correctly rounded arithmetic

    [binary_round_aux] is read as a function on codes ([bra_fine]), which is
    monotone at a fixed exponent ([round_fine_mono]) and does not depend on
    how finely its input was given ([round_fine_refine]).  Multiplication and
    division by a positive constant and [Round] inherit the monotonicity. *)

(** *** Codes *)

Lemma sticky_mono N1 N2 D : 0 < D -> N1 <= N2 -> sticky N1 D <= sticky N2 D.
Proof.
  intros HD HN. unfold sticky.
  assert (Hq : (2 * N1) / D <= (2 * N2) / D) by (apply Z.div_le_mono; lia).
  pose proof (Z.div_mod (2 * N1) D ltac:(lia)) as E1.
  pose proof (Z.div_mod (2 * N2) D ltac:(lia)) as E2.
  pose proof (Z.mod_pos_bound (2 * N1) D HD).
  pose proof (Z.mod_pos_bound (2 * N2) D HD).
  destruct (Z.eqb_spec ((2 * N1) mod D) 0), (Z.eqb_spec ((2 * N2) mod D) 0); try lia.
  assert ((2 * N1) / D < (2 * N2) / D) by nia. lia.
Qed.

Lemma sticky_scale N D a : 0 < D -> 0 < a -> sticky (N * a) (D * a) = sticky N D.
Proof.
  intros HD Ha. unfold sticky.
  replace (2 * (N * a)) with ((2 * N) * a) by ring.
  rewrite Z.div_mul_cancel_r by lia.
  rewrite Z.mul_mod_distr_r by lia.
  destruct (Z.eqb_spec ((2 * N) mod D) 0) as [E | Hne];
    destruct (Z.eqb_spec ((2 * N) mod D * a) 0) as [E' | Hne']; try reflexivity; nia.
Qed.

Lemma sticky_sticky N D D' :
  0 < D -> 0 < D' -> sticky (sticky N D) (4 * D') = sticky N (D * D').
Proof.
  intros HD HD'. unfold sticky at 1 3.
  set (T := sticky N D).
  assert (HT : T = 2 * ((2 * N) / D) + (if (2 * N) mod D =? 0 then 0 else 1)) by reflexivity.
  set (a := (2 * N) / D) in *. set (r := (2 * N) mod D) in *.
  assert (Hb : exists b, (b = 0 \/ b = 1) /\ T = 2 * a + b /\ (b = 0 <-> r = 0)).
  { destruct (Z.eqb_spec r 0); [exists 0 | exists 1]; lia. }
  destruct Hb as (b & Hb01 & HTb & Hbr).
  assert (Hq : (2 * T) / (4 * D') = a / D').
  { rewrite HTb. replace (2 * (2 * a + b)) with ((2 * a + b) * 2) by ring.
    replace (4 * D') with ((2 * D') * 2) by ring.
    rewrite Z.div_mul_cancel_r by lia.
    rewrite <- Z.div_div by lia. f_equal.
    symmetry. apply (Z.div_unique (2 * a + b) 2 a b); lia. }
  assert (Hm : (2 * T) mod (4 * D') = 0 <-> (b = 0 /\ a mod D' = 0)).
  { rewrite HTb.
    replace (2 * (2 * a + b)) with ((2 * a + b) * 2) by ring.
    replace (4 * D') with ((2 * D') * 2) by ring.
    rewrite Z.mul_mod_distr_r by lia.
    rewrite Z.rem_mul_r by lia.
    replace ((2 * a + b) mod 2) with b
      by (apply (Z.mod_unique (2 * a + b) 2 a b); lia).
    replace ((2 * a + b) / 2) with a
      by (apply (Z.div_unique (2 * a + b) 2 a b); lia).
    pose proof (Z.mod_pos_bound a D' HD'). lia. }
  rewrite Hq.
  replace ((2 * N) / (D * D')) with (a / D') by (unfold a; rewrite Z.div_div by lia; reflexivity).
  f_equal.
  assert (Hr : (2 * N) mod (D * D') = 0 <-> (r = 0 /\ a mod D' = 0)).
  { rewrite Z.rem_mul_r by lia. fold r a.
    pose proof (Z.mod_pos_bound a D' HD'). pose proof (Z.mod_pos_bound (2 * N) D HD).
    fold r in H0. nia. }
  destruct (Z.eqb_spec ((2 * T) mod (4 * D')) 0) as [E1 | E1];
    destruct (Z.eqb_spec ((2 * N) mod (D * D')) 0) as [E2 | E2]; try reflexivity;
    exfalso; tauto.
Qed.

Lemma sticky_4 T : sticky T 4 = T.
Proof.
  unfold sticky. change 4 with (2 * 2).
  rewrite Z.div_mul_cancel_l, Z.mul_mod_distr_l by lia.
  pose proof (Z.div_mod T 2 ltac:(lia)).
  pose proof (Z.mod_pos_bound T 2 ltac:(lia)).
  destruct (Z.eqb_spec (2 * (T mod 2)) 0); lia.
Qed.

Lemma sticky_div4 N D : 0 < D -> sticky N D / 4 = N / D.
Proof.
  intros HD. unfold sticky.
  set (b := if (2 * N) mod D =? 0 then 0 else 1).
  assert (0 <= b <= 1) by (subst b; destruct (_ =? _); lia).
  replace (2 * (2 * N / D) + b) with (b + (2 * N / D) * 2) by ring.
  change 4 with (2 * 2). rewrite <- Z.div_div by lia.
  rewrite Z.div_add by lia. rewrite (Z.div_small b 2) by lia. rewrite Z.add_0_l.
  rewrite Z.div_div by lia. rewrite (Z.mul_comm D 2).
  rewrite Z.div_mul_cancel_l by lia. reflexivity.
Qed.

Lemma sticky_nonneg N D : 0 < D -> 0 <= N -> 0 <= sticky N D.
Proof.
  intros HD HN. unfold sticky.
  assert (0 <= (2 * N) / D) by (apply Z.div_pos; lia).
  destruct (Z.eqb_spec ((2 * N) mod D) 0); lia.
Qed.

Lemma sticky_exact M : sticky M 1 = 4 * M.
Proof. unfold sticky. rewrite Z.div_1_r, Z.mod_1_r. change (0 =? 0) with true. cbv iota. lia. Qed.

Lemma down_0 T : down 0 T = T.
Proof. unfold down. change (4 * 2 ^ 0) with 4. apply sticky_4. Qed.

Lemma down_down a b T : 0 <= a -> 0 <= b -> down a (down b T) = down (a + b) T.
Proof.
  intros Ha Hb. unfold down.
  rewrite sticky_sticky by lia.
  f_equal. rewrite (Z.add_comm a b), Z.pow_add_r by lia. ring.
Qed.

Lemma down_mono n T1 T2 : 0 <= n -> T1 <= T2 -> down n T1 <= down n T2.
Proof. intros Hn HT. apply sticky_mono; lia. Qed.

Lemma down_nonneg n T : 0 <= n -> 0 <= T -> 0 <= down n T.
Proof. intros. apply sticky_nonneg; lia. Qed.

Lemma down_div4 n T : 0 <= n -> down n T / 4 = (T / 4) / 2 ^ n.
Proof.
  intros Hn. unfold down. rewrite sticky_div4 by lia.
  rewrite Z.div_div by lia. reflexivity.
Qed.

Lemma down_1 T : down 1 T = 2 * (T / 4) + (if T mod 4 =? 0 then 0 else 1).
Proof.
  unfold down, sticky. change (4 * 2 ^ 1) with (2 * 4).
  rewrite Z.div_mul_cancel_l, Z.mul_mod_distr_l by lia.
  destruct (Z.eqb_spec (2 * (T mod 4)) 0), (Z.eqb_spec (T mod 4) 0); lia.
Qed.

(** *** The shift register *)

Lemma shr_1_code mrs :
  0 <= shr_m mrs -> code (shr_1 mrs) = down 1 (code mrs) /\ 0 <= shr_m (shr_1 mrs).
Proof.
  intros Hm. rewrite down_1.
  destruct mrs as [m r s]. simpl in Hm.
  assert (Hq : code {| shr_m := m; shr_r := r; shr_s := s |} / 4 = m
               /\ code {| shr_m := m; shr_r := r; shr_s := s |} mod 4
                  = 2 * Z.b2z r + Z.b2z s).
  { unfold code; cbn [shr_m shr_r shr_s].
    assert (0 <= 2 * Z.b2z r + Z.b2z s < 4) by (destruct r, s; simpl; lia).
    split; symmetry.
    - apply (Z.div_unique _ 4 m (2 * Z.b2z r + Z.b2z s)); lia.
    - apply (Z.mod_unique _ 4 m (2 * Z.b2z r + Z.b2z s)); lia. }
  destruct Hq as [-> ->].
  assert (Hs : shr_1 {| shr_m := m; shr_r := r; shr_s := s |} =
               {| shr_m := Z.div2 m; shr_r := Z.odd m; shr_s := r || s |}).
  { destruct m as [|p|p]; [reflexivity | destruct p; reflexivity | lia]. }
  rewrite Hs. unfold code; cbn [shr_m shr_r shr_s].
  pose proof (Z.div2_odd m) as Hd.
  assert (0 <= Z.div2 m) by (apply Z.div2_nonneg; lia).
  split; [|assumption].
  replace (if 2 * Z.b2z r + Z.b2z s =? 0 then 0 else 1) with (Z.b2z (r || s))
    by (destruct r, s; reflexivity).
  destruct (Z.odd m); cbn [Z.b2z] in *; lia.
Qed.

Lemma iter_pos_shr_1_code p : forall mrs,
  0 <= shr_m mrs ->
  code (SpecFloat.iter_pos shr_1 p mrs) = down (Zpos p) (code mrs) /\
  0 <= shr_m (SpecFloat.iter_pos shr_1 p mrs).
Proof.
  induction p as [p IH | p IH |]; intros mrs Hm; cbn [SpecFloat.iter_pos].
  - destruct (shr_1_code mrs Hm) as [E1 H1].
    destruct (IH _ H1) as [E2 H2]. destruct (IH _ H2) as [E3 H3].
    split; [|exact H3].
    rewrite E3, E2, E1, !down_down by lia. f_equal. lia.
  - destruct (IH _ Hm) as [E2 H2]. destruct (IH _ H2) as [E3 H3].
    split; [|exact H3].
    rewrite E3, E2, !down_down by lia. f_equal. lia.
  - apply shr_1_code, Hm.
Qed.

(** The record is determined by its code. *)
Lemma code_record mrs :
  0 <= shr_m mrs ->
  shr_m mrs = code mrs / 4 /\
  round_nearest_even (shr_m mrs) (loc_of_shr_record mrs) = rne (code mrs).
Proof.
  destruct mrs as [m r s]; cbn [shr_m]. intros Hm. unfold code, rne; cbn [shr_m shr_r shr_s].
  assert (Hb : 0 <= 2 * Z.b2z r + Z.b2z s < 4) by (destruct r, s; simpl; lia).
  assert (Hq : (4 * m + 2 * Z.b2z r + Z.b2z s) / 4 = m)
    by (symmetry; apply (Z.div_unique _ 4 m (2 * Z.b2z r + Z.b2z s)); lia).
  assert (Hr : (4 * m + 2 * Z.b2z r + Z.b2z s) mod 4 = 2 * Z.b2z r + Z.b2z s)
    by (symmetry; apply (Z.mod_unique _ 4 m (2 * Z.b2z r + Z.b2z s)); lia).
  rewrite Hq, Hr. split; [reflexivity|].
  destruct r, s; cbn [loc_of_shr_record round_nearest_even Z.b2z];
    change (2 * 0 + 0) with 0; change (2 * 0 + 1) with 1;
    change (2 * 1 + 0) with 2; change (2 * 1 + 1) with 3;
    cbn [Z.eqb Pos.eqb orb andb].
  - lia.
  - rewrite <- Z.negb_even. destruct (Z.even m); cbn [negb]; lia.
  - lia.
  - lia.
Qed.

Lemma code_of_loc m l :
  code (shr_record_of_loc m l) =
  4 * m + match l with
          | loc_Exact => 0
          | loc_Inexact Lt => 1
          | loc_Inexact Eq => 2
          | loc_Inexact Gt => 3
          end
  /\ shr_m (shr_record_of_loc m l) = m.
Proof. destruct l as [|[]]; unfold code; simpl; split; lia. Qed.

Lemma rne_mono U1 U2 : U1 <= U2 -> rne U1 <= rne U2.
Proof.
  intros HU. unfold rne.
  pose proof (Z.div_mod U1 4 ltac:(lia)) as E1.
  pose proof (Z.div_mod U2 4 ltac:(lia)) as E2.
  pose proof (Z.mod_pos_bound U1 4 ltac:(lia)) as B1.
  pose proof (Z.mod_pos_bound U2 4 ltac:(lia)) as B2.
  assert (Hq : U1 / 4 <= U2 / 4) by (apply Z.div_le_mono; lia).
  destruct (Z.eq_dec (U1 / 4) (U2 / 4)) as [Heq | Hne].
  - rewrite Heq in *.
    destruct (Z.eqb_spec (U1 mod 4) 3), (Z.eqb_spec (U1 mod 4) 2),
             (Z.eqb_spec (U2 mod 4) 3), (Z.eqb_spec (U2 mod 4) 2);
      cbn [orb andb]; destruct (Z.odd (U2 / 4)); lia.
  - destruct ((U1 mod 4 =? 3) || (U1 mod 4 =? 2) && Z.odd (U1 / 4)),
             ((U2 mod 4 =? 3) || (U2 mod 4 =? 2) && Z.odd (U2 / 4)); lia.
Qed.

Lemma rne_bounds U : U / 4 <= rne U <= U / 4 + 1.
Proof. unfold rne. destruct (_ || _); lia. Qed.

(** Rounding does not pass a multiple of four lying above. *)
Lemma rne_le_exact U M : U <= 4 * M -> rne U <= M.
Proof.
  intros HU. unfold rne.
  pose proof (Z.div_mod U 4 ltac:(lia)) as E1.
  pose proof (Z.mod_pos_bound U 4 ltac:(lia)) as B1.
  destruct (Z.eqb_spec (U mod 4) 3), (Z.eqb_spec (U mod 4) 2); cbn [orb andb];
    try destruct (Z.odd (U / 4)); lia.
Qed.

(** *** Exponents and digits *)

Lemma fexp_eq D : fexp prec emax D = Z.max (D - 53) (-1074).
Proof. reflexivity. Qed.

Lemma fexp_mono D1 D2 : D1 <= D2 -> fexp prec emax D1 <= fexp prec emax D2.
Proof. rewrite !fexp_eq. lia. Qed.

Lemma digits2_pos_bounds p :
  2 ^ (Zpos (digits2_pos p) - 1) <= Zpos p < 2 ^ Zpos (digits2_pos p).
Proof.
  assert (Hstep : forall d q, 0 < d -> 2 ^ (d - 1) <= q < 2 ^ d ->
            forall q', 2 * q <= q' <= 2 * q + 1 ->
            2 ^ (Z.succ d - 1) <= q' < 2 ^ Z.succ d).
  { intros d q Hd Hq q' Hq'.
    replace (Z.succ d - 1) with (Z.succ (d - 1)) by lia.
    rewrite !Z.pow_succ_r by lia. lia. }
  induction p as [p IH | p IH |]; cbn [digits2_pos].
  - rewrite Pos2Z.inj_succ. apply (Hstep _ (Zpos p)); [lia | exact IH | lia].
  - rewrite Pos2Z.inj_succ. apply (Hstep _ (Zpos p)); [lia | exact IH | lia].
  - change (2 ^ (1 - 1) <= 1 < 2 ^ 1). lia.
Qed.

Lemma Zdigits2_nonneg m : 0 <= Zdigits2 m.
Proof. destruct m; simpl; lia. Qed.

Lemma Zdigits2_bounds m :
  0 < m -> 2 ^ (Zdigits2 m - 1) <= m < 2 ^ Zdigits2 m.
Proof. destruct m as [|p|p]; try lia. intros _. apply digits2_pos_bounds. Qed.

Lemma Zdigits2_le m k : 0 <= m -> 0 <= k -> (Zdigits2 m <= k <-> m < 2 ^ k).
Proof.
  intros Hm Hk. destruct (Z.eq_dec m 0) as [-> | Hne].
  - simpl. split; intros _; [apply Z.pow_pos_nonneg|]; lia.
  - pose proof (Zdigits2_bounds m ltac:(lia)) as [Hlo Hhi].
    pose proof (Zdigits2_nonneg m). split; intros H'.
    + eapply Z.lt_le_trans; [exact Hhi|]. apply Z.pow_le_mono_r; lia.
    + destruct (Z_le_gt_dec (Zdigits2 m) k) as [|Hgt]; [assumption|].
      assert (2 ^ k <= 2 ^ (Zdigits2 m - 1)) by (apply Z.pow_le_mono_r; lia). lia.
Qed.

Lemma Zdigits2_ge m k : 0 <= m -> 0 < k -> (k <= Zdigits2 m <-> 2 ^ (k - 1) <= m).
Proof.
  intros Hm Hk. pose proof (Zdigits2_le m (k - 1) Hm ltac:(lia)). lia.
Qed.

Lemma Zdigits2_mono m1 m2 : 0 <= m1 <= m2 -> Zdigits2 m1 <= Zdigits2 m2.
Proof.
  intros [H1 H2]. pose proof (Zdigits2_nonneg m2).
  apply Zdigits2_le; try lia.
  destruct (Z.eq_dec m2 0) as [-> | Hne].
  - replace m1 with 0 by lia. simpl. lia.
  - pose proof (Zdigits2_bounds m2 ltac:(lia)). lia.
Qed.

Lemma shr_code mrs e n :
  0 <= shr_m mrs -> 0 <= n ->
  code (fst (shr mrs e n)) = down n (code mrs) /\
  snd (shr mrs e n) = e + n /\
  0 <= shr_m (fst (shr mrs e n)).
Proof.
  intros Hm Hn. destruct n as [|p|p]; [| |lia]; cbn [shr fst snd].
  - rewrite down_0. repeat split; lia.
  - destruct (iter_pos_shr_1_code p mrs Hm). repeat split; auto.
Qed.

Lemma div_pow2_lt m a b : 0 <= m -> 0 <= a -> 0 <= b -> m < 2 ^ (a + b) -> m / 2 ^ a < 2 ^ b.
Proof.
  intros Hm Ha Hb H. apply Z.div_lt_upper_bound; [apply Z.pow_pos_nonneg; lia|].
  rewrite <- Z.pow_add_r by lia. exact H.
Qed.

Lemma div_pow2_ge m a b : 0 <= a -> 0 <= b -> 2 ^ (a + b) <= m -> 2 ^ b <= m / 2 ^ a.
Proof.
  intros Ha Hb H. apply Z.div_le_lower_bound; [apply Z.pow_pos_nonneg; lia|].
  rewrite <- Z.pow_add_r by lia. exact H.
Qed.

(** *** The rounding of a fine input *)

(** The rounded significand of a fine input. *)
Lemma round_fine_significand T e :
  0 <= T -> e <= fexp prec emax (Zdigits2 (T / 4) + e) ->
  let E := fexp prec emax (Zdigits2 (T / 4) + e) in
  let m1 := rne (down (E - e) T) in
  0 <= m1 <= 2 ^ 53 /\
  (-1074 <= Zdigits2 (T / 4) + e - 53 -> 2 ^ 52 <= m1) /\
  (Zdigits2 (T / 4) + e - 53 < -1074 -> m1 <= 2 ^ 52) /\
  -1074 <= E.
Proof.
  intros HT Hfine E m1.
  set (mx := T / 4) in *. set (d := Zdigits2 mx) in *.
  assert (Hmx : 0 <= mx) by (apply Z.div_pos; lia).
  assert (Hd : 0 <= d) by apply Zdigits2_nonneg.
  assert (HE : E = Z.max (d + e - 53) (-1074)) by reflexivity.
  assert (Hn : 0 <= E - e) by lia.
  pose proof (rne_bounds (down (E - e) T)) as Hb. fold m1 in Hb.
  rewrite down_div4 in Hb by lia. fold mx in Hb.
  assert (Hq0 : 0 <= mx / 2 ^ (E - e)) by (apply Z.div_pos; [lia | apply Z.pow_pos_nonneg; lia]).
  destruct (Z_le_gt_dec (-1074) (d + e - 53)) as [Hnorm | Hsub].
  - (* normal *)
    assert (E = d + e - 53) by lia.
    assert (0 < mx).
    { destruct (Z.eq_dec mx 0) as [E0|]; [|lia]. subst d. rewrite E0 in *. simpl in *. lia. }
    pose proof (Zdigits2_bounds mx ltac:(lia)) as [Hlo Hhi]. fold d in Hlo, Hhi.
    assert (2 ^ 52 <= mx / 2 ^ (E - e)).
    { apply div_pow2_ge; try lia. replace (E - e + 52) with (d - 1) by lia. exact Hlo. }
    assert (mx / 2 ^ (E - e) < 2 ^ 53).
    { apply div_pow2_lt; try lia. replace (E - e + 53) with d by lia. exact Hhi. }
    repeat split; lia.
  - (* subnormal *)
    assert (E = -1074) by lia.
    assert (Hlt : mx / 2 ^ (E - e) < 2 ^ 52).
    { destruct (Z.eq_dec mx 0) as [E0|].
      - rewrite E0, Z.div_0_l by (apply Z.pow_nonzero; lia). lia.
      - pose proof (Zdigits2_bounds mx ltac:(lia)) as [Hlo Hhi]. fold d in Hlo, Hhi.
        destruct (Z_le_gt_dec 0 (d + e + 1074)) as [Hp | Hnp].
        + eapply Z.lt_le_trans; [apply (div_pow2_lt mx (E - e) (d + e + 1074)); try lia|].
          * replace (E - e + (d + e + 1074)) with d by lia. exact Hhi.
          * apply Z.pow_le_mono_r; lia.
        + rewrite Z.div_small; [lia|]. split; [lia|].
          eapply Z.lt_le_trans; [exact Hhi|]. apply Z.pow_le_mono_r; lia. }
    repeat split; lia.
Qed.

Lemma bra_fine s mx ex lx :
  0 <= mx -> ex <= fexp prec emax (Zdigits2 mx + ex) ->
  binary_round_aux prec emax s mx ex lx = pack s (round_fine (4 * mx + loc_code lx) ex).
Proof.
  intros Hmx Hfine.
  set (T := 4 * mx + loc_code lx).
  assert (Hl : 0 <= loc_code lx < 4) by (destruct lx as [|[]]; simpl; lia).
  assert (HT4 : T / 4 = mx) by (symmetry; apply (Z.div_unique T 4 mx (loc_code lx)); lia).
  assert (HT : 0 <= T) by lia.
  pose proof (round_fine_significand T ex HT) as Hsig. rewrite HT4 in Hsig.
  specialize (Hsig Hfine). cbv zeta in Hsig.
  unfold round_fine. rewrite HT4. cbv zeta.
  set (E := fexp prec emax (Zdigits2 mx + ex)) in *.
  set (m1 := rne (down (E - ex) T)) in *.
  destruct Hsig as (Hm1 & Hnorm & Hsub & HE).
  unfold binary_round_aux, shr_fexp.
  destruct (code_of_loc mx lx) as [Hc Hm]. fold (loc_code lx) in Hc. fold T in Hc.
  fold E.
  pose proof (shr_code (shr_record_of_loc mx lx) ex (E - ex) ltac:(lia) ltac:(lia)) as (Hc1 & He1 & Hm1').
  destruct (shr (shr_record_of_loc mx lx) ex (E - ex)) as [mrs' e'] eqn:Hshr.
  cbn [fst snd] in Hc1, He1, Hm1'.
  destruct (code_record mrs' Hm1') as [_ Hrne].
  rewrite Hrne, Hc1, Hc. fold m1.
  replace e' with E by lia.
  destruct (Z.eqb_spec m1 (2 ^ prec)) as [Hcarry | Hno].
  - (* carry into bit 53 *)
    rewrite Hcarry.
    assert (HE' : fexp prec emax (Zdigits2 (2 ^ prec) + E) - E = 1).
    { change (Zdigits2 (2 ^ prec)) with 54. rewrite fexp_eq. lia. }
    rewrite HE'. cbn [shr_record_of_loc shr SpecFloat.iter_pos]. 
    change (shr_m (shr_1 {| shr_m := 2 ^ prec; shr_r := false; shr_s := false |})) with (2 ^ 52).
    unfold pack. cbn [fst snd]. reflexivity.
  - assert (Hlt : m1 < 2 ^ 53) by (change (2 ^ prec) with (2 ^ 53) in Hno; lia).
    assert (HE' : fexp prec emax (Zdigits2 m1 + E) - E <= 0).
    { rewrite fexp_eq. pose proof (proj2 (Zdigits2_le m1 53 ltac:(lia) ltac:(lia)) Hlt) as Hd.
      lia. }
    assert (Hshr2 : shr (shr_record_of_loc m1 loc_Exact) E (fexp prec emax (Zdigits2 m1 + E) - E)
                    = (shr_record_of_loc m1 loc_Exact, E)).
    { destruct (fexp prec emax (Zdigits2 m1 + E) - E) as [|p|p]; try reflexivity. lia. }
    rewrite Hshr2. cbn [shr_record_of_loc shr_m]. reflexivity.
Qed.

Lemma round_fine_mono T1 T2 e :
  0 <= T1 <= T2 -> fine T1 e -> fine T2 e ->
  pair_le (round_fine T1 e) (round_fine T2 e).
Proof.
  intros [H1 H12] Hf1 Hf2. unfold fine in *.
  pose proof (round_fine_significand T1 e H1 Hf1) as (Hm1 & Hn1 & Hs1 & HE1).
  pose proof (round_fine_significand T2 e ltac:(lia) Hf2) as (Hm2 & Hn2 & Hs2 & HE2).
  cbv zeta in *. unfold round_fine.
  assert (Hd : Zdigits2 (T1 / 4) <= Zdigits2 (T2 / 4)).
  { apply Zdigits2_mono. split; [apply Z.div_pos; lia | apply Z.div_le_mono; lia]. }
  set (D1 := Zdigits2 (T1 / 4) + e) in *. set (D2 := Zdigits2 (T2 / 4) + e) in *.
  set (E1 := fexp prec emax D1) in *. set (E2 := fexp prec emax D2) in *.
  assert (HE12 : E1 <= E2) by (apply fexp_mono; lia).
  assert (HeqE1 : E1 = Z.max (D1 - 53) (-1074)) by reflexivity.
  assert (HeqE2 : E2 = Z.max (D2 - 53) (-1074)) by reflexivity.
  set (m1 := rne (down (E1 - e) T1)) in *. set (m2 := rne (down (E2 - e) T2)) in *.
  change (2 ^ prec) with (2 ^ 53). change (2 ^ (prec - 1)) with (2 ^ 52).
  unfold pair_le.
  destruct (Z.eq_dec E1 E2) as [Heq | Hne].
  - assert (Hm12 : m1 <= m2).
    { subst m1 m2. rewrite Heq. apply rne_mono, down_mono; lia. }
    destruct (Z.eqb_spec m1 (2 ^ 53)), (Z.eqb_spec m2 (2 ^ 53)); cbn [fst snd]; lia.
  - assert (2 ^ 52 <= m2) by (apply Hn2; lia).
    destruct (Z.eqb_spec m1 (2 ^ 53)), (Z.eqb_spec m2 (2 ^ 53)); cbn [fst snd]; lia.
Qed.

Lemma Zdigits2_shift m k :
  0 <= k -> 0 < m / 2 ^ k -> Zdigits2 m = Zdigits2 (m / 2 ^ k) + k.
Proof.
  intros Hk Hq.
  assert (Hp : 0 < 2 ^ k) by pow2_pos.
  assert (Hm : 0 < m).
  { destruct (Z_lt_le_dec 0 m); [assumption|].
    assert (m / 2 ^ k <= 0) by (apply Z.div_le_upper_bound; lia). lia. }
  pose proof (Zdigits2_bounds _ Hq) as [Hlo Hhi].
  set (d := Zdigits2 (m / 2 ^ k)) in *.
  assert (Hd : 0 < d).
  { destruct (Z_lt_le_dec 0 d); [assumption|].
    pose proof (Zdigits2_nonneg (m / 2 ^ k)). fold d in H.
    replace d with 0 in Hhi by lia. simpl in Hhi. lia. }
  pose proof (Z.div_mod m (2 ^ k) ltac:(lia)) as Hdm.
  pose proof (Z.mod_pos_bound m (2 ^ k) Hp) as Hmb.
  assert (Hup : m < 2 ^ (d + k)).
  { rewrite Z.pow_add_r by lia. nia. }
  assert (Hdown : 2 ^ (d + k - 1) <= m).
  { replace (d + k - 1) with ((d - 1) + k) by lia. rewrite Z.pow_add_r by lia. nia. }
  apply Z.le_antisymm.
  - apply Zdigits2_le; lia.
  - apply Zdigits2_ge; lia.
Qed.

Lemma round_fine_refine T' e k :
  0 <= T' -> 0 <= k -> fine (down k T') e ->
  fine T' (e - k) /\ round_fine T' (e - k) = round_fine (down k T') e.
Proof.
  intros HT Hk Hf. unfold fine in *.
  assert (Hq : down k T' / 4 = (T' / 4) / 2 ^ k) by (apply down_div4; lia).
  rewrite Hq in Hf.
  assert (Hp : 0 < 2 ^ k) by pow2_pos.
  assert (Hm' : 0 <= T' / 4) by (apply Z.div_pos; lia).
  assert (Hm : 0 <= (T' / 4) / 2 ^ k) by (apply Z.div_pos; lia).
  assert (HE : fexp prec emax (Zdigits2 (T' / 4) + (e - k))
               = fexp prec emax (Zdigits2 ((T' / 4) / 2 ^ k) + e)).
  { destruct (Z.eq_dec ((T' / 4) / 2 ^ k) 0) as [E0 | Hne].
    - rewrite E0 in *. simpl Zdigits2 in *. rewrite fexp_eq in Hf.
      assert (T' / 4 < 2 ^ k).
      { destruct (Z_lt_le_dec (T' / 4) (2 ^ k)); [assumption|].
        assert (1 <= (T' / 4) / 2 ^ k) by (apply Z.div_le_lower_bound; lia). lia. }
      pose proof (proj2 (Zdigits2_le (T' / 4) k Hm' Hk) H).
      pose proof (Zdigits2_nonneg (T' / 4)).
      rewrite !fexp_eq. lia.
    - rewrite (Zdigits2_shift (T' / 4) k) by lia. f_equal. lia. }
  split; [rewrite HE; lia|].
  unfold round_fine. rewrite Hq, HE.
  set (E := fexp prec emax (Zdigits2 ((T' / 4) / 2 ^ k) + e)) in *.
  rewrite down_down by lia.
  replace (E - e + k) with (E - (e - k)) by lia. reflexivity.
Qed.

Lemma round_fine_canonical T e :
  0 <= T -> fine T e ->
  let E := fexp prec emax (Zdigits2 (T / 4) + e) in
  0 <= fst (round_fine T e) /\
  canonical (fst (round_fine T e)) (snd (round_fine T e)) /\
  E <= snd (round_fine T e) <= E + 1 /\
  (-1074 <= Zdigits2 (T / 4) + e - 53 -> 2 ^ 52 <= fst (round_fine T e)).
Proof.
  intros HT Hf E. unfold fine in Hf.
  pose proof (round_fine_significand T e HT Hf) as (Hm1 & Hn1 & Hs1 & HE1).
  cbv zeta in *. fold E in Hm1, Hn1, Hs1, HE1 |- *.
  unfold round_fine. fold E.
  set (m1 := rne (down (E - e) T)) in *.
  assert (HeqE : E = Z.max (Zdigits2 (T / 4) + e - 53) (-1074)) by reflexivity.
  change (2 ^ prec) with (2 ^ 53). change (2 ^ (prec - 1)) with (2 ^ 52).
  unfold canonical.
  destruct (Z.eqb_spec m1 (2 ^ 53)) as [Hc | Hnc]; cbn [fst snd].
  - repeat split; try lia. change (Zdigits2 (2 ^ 52)) with 53. rewrite fexp_eq. lia.
  - repeat split; try lia. rewrite fexp_eq.
    assert (Hd : Zdigits2 m1 <= 53) by (apply Zdigits2_le; lia).
    destruct (Z_le_gt_dec (-1074) (Zdigits2 (T / 4) + e - 53)) as [Hn | Hs].
    + assert (53 <= Zdigits2 m1) by (apply Zdigits2_ge; try lia; apply Hn1; lia). lia.
    + lia.
Qed.

Lemma rnd_q_refine N D e k :
  0 <= N -> 0 < D -> 0 <= k -> fine (sticky N D) e ->
  fine (sticky (N * 2 ^ k) D) (e - k) /\
  rnd_q (N * 2 ^ k) D (e - k) = rnd_q N D e.
Proof.
  intros HN HD Hk Hf.
  assert (Hp : 0 < 2 ^ k) by pow2_pos.
  assert (Hdown : down k (sticky (N * 2 ^ k) D) = sticky N D).
  { unfold down. rewrite sticky_sticky by lia. apply sticky_scale; lia. }
  unfold rnd_q. rewrite <- Hdown in Hf |- *.
  apply round_fine_refine; auto. apply sticky_nonneg; nia.
Qed.

Lemma rnd_q_mono N1 N2 D e1 e2 e0 :
  0 <= N1 -> 0 <= N2 -> 0 < D -> e0 <= e1 -> e0 <= e2 ->
  fine (sticky N1 D) e1 -> fine (sticky N2 D) e2 ->
  N1 * 2 ^ (e1 - e0) <= N2 * 2 ^ (e2 - e0) ->
  pair_le (rnd_q N1 D e1) (rnd_q N2 D e2).
Proof.
  intros H1 H2 HD He1 He2 Hf1 Hf2 Hle.
  destruct (rnd_q_refine N1 D e1 (e1 - e0) H1 HD ltac:(lia) Hf1) as [Hf1' <-].
  destruct (rnd_q_refine N2 D e2 (e2 - e0) H2 HD ltac:(lia) Hf2) as [Hf2' <-].
  replace (e1 - (e1 - e0)) with e0 in * by lia.
  replace (e2 - (e2 - e0)) with e0 in * by lia.
  unfold rnd_q. apply round_fine_mono; auto. split.
  - apply sticky_nonneg; [lia|]. apply Z.mul_nonneg_nonneg; [lia|]. apply Z.pow_nonneg; lia.
  - apply sticky_mono; lia.
Qed.

(** *** Canonical numbers and their order *)

Lemma canonical_digits m e :
  canonical m e -> Zdigits2 m <= 53 /\ -1074 <= e /\ (-1074 < e -> Zdigits2 m = 53).
Proof. unfold canonical. rewrite fexp_eq. lia. Qed.

Lemma canonical_value_le mx ex my ey a :
  0 < mx -> 0 < my -> canonical mx ex -> canonical my ey -> lex_le mx ex my ey ->
  a <= ex -> a <= ey ->
  mx * 2 ^ (ex - a) <= my * 2 ^ (ey - a).
Proof.
  intros Hx Hy Hcx Hcy Hlex Hax Hay.
  destruct (canonical_digits _ _ Hcx) as (Hdx & Hex & _).
  destruct (canonical_digits _ _ Hcy) as (Hdy & Hey & Hny).
  assert (Hp : 0 < 2 ^ (ex - a)) by pow2_pos.
  destruct Hlex as [Hlt | [-> Hle]].
  - assert (Hmx : mx < 2 ^ 53) by (apply Zdigits2_le; lia).
    assert (Hmy : 2 ^ 52 <= my) by (apply (Zdigits2_ge my 53); lia).
    replace (ey - a) with ((ey - ex - 1) + 1 + (ex - a)) by lia.
    rewrite !Z.pow_add_r by lia.
    assert (HQ : 1 <= 2 ^ (ey - ex - 1)) by (apply (Z.pow_le_mono_r 2 0); lia).
    change (2 ^ 1) with 2.
    set (P := 2 ^ (ex - a)) in *. set (Q := 2 ^ (ey - ex - 1)) in *.
    assert (H1 : mx * P <= (2 * my) * P) by (apply Z.mul_le_mono_nonneg_r; lia).
    assert (H2 : 0 <= (my * P) * (Q - 1)) by (apply Z.mul_nonneg_nonneg; nia).
    lia.
  - apply Z.mul_le_mono_nonneg_r; lia.
Qed.

Lemma scaled_mono A B D mx ex my ey e1 e2 :
  0 < A -> 0 < D -> 0 < mx -> 0 < my ->
  canonical mx ex -> canonical my ey -> lex_le mx ex my ey ->
  e1 <= ex - B -> e2 <= ey - B ->
  fine (sticky (mx * A * 2 ^ (ex - B - e1)) D) e1 ->
  fine (sticky (my * A * 2 ^ (ey - B - e2)) D) e2 ->
  pair_le (rnd_q (mx * A * 2 ^ (ex - B - e1)) D e1)
          (rnd_q (my * A * 2 ^ (ey - B - e2)) D e2).
Proof.
  intros HA HD Hx Hy Hcx Hcy Hlex He1 He2 Hf1 Hf2.
  assert (Hp1 : 0 < 2 ^ (ex - B - e1)) by pow2_pos.
  assert (Hp2 : 0 < 2 ^ (ey - B - e2)) by pow2_pos.
  apply (rnd_q_mono _ _ D e1 e2 (Z.min e1 e2)); auto; try lia; try nia.
  rewrite <- !Z.mul_assoc, <- !Z.pow_add_r by lia.
  replace (ex - B - e1 + (e1 - Z.min e1 e2)) with (ex - (B + Z.min e1 e2)) by lia.
  replace (ey - B - e2 + (e2 - Z.min e1 e2)) with (ey - (B + Z.min e1 e2)) by lia.
  pose proof (canonical_value_le mx ex my ey (B + Z.min e1 e2) Hx Hy Hcx Hcy Hlex
                ltac:(lia) ltac:(lia)) as Hv.
  rewrite !(Z.mul_comm A), !Z.mul_assoc.
  apply Z.mul_le_mono_nonneg_r; lia.
Qed.

(** *** Packing *)

Lemma pack_nonneg me :
  0 <= fst me -> canonical (fst me) (snd me) -> nonneg_float (pack false me).
Proof.
  destruct me as [m e]. cbn [fst snd]. intros Hm Hc. unfold pack; cbn [fst snd].
  destruct m as [|p|p]; [exact I | | lia].
  change (emax - prec) with 971.
  destruct (Z.leb_spec e 971); cbn; auto.
Qed.

Lemma pack_leb a b :
  pair_le a b -> 0 <= fst b -> SFleb (pack false a) (pack false b) = true.
Proof.
  destruct a as [ma ea], b as [mb eb]. unfold pair_le, pack; cbn [fst snd].
  change (emax - prec) with 971.
  intros Hle Hb. destruct Hle as [-> | (Ha & Hb' & Hlex)].
  - destruct mb as [|p|p]; [reflexivity | | lia].
    destruct (eb <=? 971); reflexivity.
  - destruct ma as [|pa|pa]; try lia. destruct mb as [|pb|pb]; try lia.
    destruct (Z.leb_spec ea 971), (Z.leb_spec eb 971); try reflexivity; try lia.
    unfold SFleb, SFcompare.
    destruct Hlex as [Hlt | [-> Hle]].
    + apply Z.compare_lt_iff in Hlt. rewrite Hlt. reflexivity.
    + rewrite Z.compare_refl.
      change (Pos.compare_cont Eq pa pb) with (Pos.compare pa pb).
      destruct (Pos.compare_spec pa pb); try reflexivity. lia.
Qed.

Lemma leb_zero_nonneg x : nonneg_float x -> SFleb (S754_zero false) x = true.
Proof. destruct x as [[]|[]| |[] m e]; simpl; tauto. Qed.

Lemma leb_nonneg_inf x : nonneg_float x -> SFleb x (S754_infinity false) = true.
Proof. destruct x as [[]|[]| |[] m e]; simpl; tauto. Qed.

Lemma leb_finite_inv mx ex my ey :
  SFleb (S754_finite false mx ex) (S754_finite false my ey) = true ->
  lex_le (Zpos mx) ex (Zpos my) ey.
Proof.
  unfold SFleb, SFcompare, lex_le.
  destruct (Z.compare_spec ex ey) as [-> | Hlt | Hgt]; try discriminate; [|lia].
  change (Pos.compare_cont Eq mx my) with (Pos.compare mx my).
  destruct (Pos.compare_spec mx my); try discriminate; lia.
Qed.

(** *** Multiplication and division *)

Lemma Zdigits2_mul_ge a b :
  0 < a -> 0 < b -> Zdigits2 a + Zdigits2 b - 1 <= Zdigits2 (a * b).
Proof.
  intros Ha Hb.
  pose proof (Zdigits2_bounds a Ha) as [Hla _].
  pose proof (Zdigits2_bounds b Hb) as [Hlb _].
  assert (0 < Zdigits2 a).
  { pose proof (Zdigits2_nonneg a). destruct a; simpl in *; lia. }
  assert (0 < Zdigits2 b).
  { pose proof (Zdigits2_nonneg b). destruct b; simpl in *; lia. }
  apply Zdigits2_ge; try nia.
  replace (Zdigits2 a + Zdigits2 b - 1 - 1) with ((Zdigits2 a - 1) + (Zdigits2 b - 1)) by lia.
  rewrite Z.pow_add_r by lia.
  apply Z.mul_le_mono_nonneg; try lia; apply Z.pow_nonneg; lia.
Qed.

Lemma Zdigits2_pos m : 0 < m -> 0 < Zdigits2 m.
Proof. destruct m; simpl; lia. Qed.

Lemma mul_finite_model mx ex mc ec :
  canonical (Zpos mx) ex -> canonical (Zpos mc) ec ->
  fine (sticky (Zpos mx * Zpos mc) 1) (ex + ec) /\
  SFmul prec emax (S754_finite false mx ex) (S754_finite false mc ec)
  = pack false (rnd_q (Zpos mx * Zpos mc) 1 (ex + ec)).
Proof.
  intros Hx Hc.
  destruct (canonical_digits _ _ Hx) as (Hdx & Hex & Hnx).
  destruct (canonical_digits _ _ Hc) as (Hdc & Hec & Hnc).
  pose proof (Zdigits2_mul_ge (Zpos mx) (Zpos mc) ltac:(lia) ltac:(lia)) as Hd.
  pose proof (Zdigits2_pos (Zpos mx) ltac:(lia)).
  pose proof (Zdigits2_pos (Zpos mc) ltac:(lia)).
  assert (Hf : ex + ec <= fexp prec emax (Zdigits2 (Zpos mx * Zpos mc) + (ex + ec))).
  { rewrite fexp_eq.
    destruct (Z.eq_dec ec (-1074)) as [Hc0 | Hc0].
    - destruct (Z.eq_dec ex (-1074)) as [Hx0 | Hx0]; [lia|].
      specialize (Hnx ltac:(lia)). lia.
    - specialize (Hnc ltac:(lia)). lia. }
  split.
  - unfold fine. rewrite sticky_div4, Z.div_1_r by lia. exact Hf.
  - unfold rnd_q. rewrite sticky_exact.
    cbn [SFmul xorb]. rewrite bra_fine; [| lia | exact Hf].
    cbn [loc_code]. rewrite Z.add_0_r. reflexivity.
Qed.

Lemma sticky_divmod N D q r :
  0 < D -> N = D * q + r -> 0 <= r < D ->
  sticky N D = 4 * q + (if r =? 0 then 0
                        else match 2 * r ?= D with Lt => 1 | Eq => 2 | Gt => 3 end).
Proof.
  intros HD HN Hr. unfold sticky.
  destruct (Z.compare_spec (2 * r) D) as [Heq | Hlt | Hgt].
  - assert (Hq : (2 * N) / D = 2 * q + 1)
      by (symmetry; apply (Z.div_unique _ D _ 0); lia).
    assert (Hm : (2 * N) mod D = 0)
      by (symmetry; apply (Z.mod_unique _ D (2 * q + 1) 0); lia).
    rewrite Hq, Hm. destruct (Z.eqb_spec r 0); [lia|]. change (0 =? 0) with true. cbv iota. lia.
  - assert (Hq : (2 * N) / D = 2 * q)
      by (symmetry; apply (Z.div_unique _ D _ (2 * r)); lia).
    assert (Hm : (2 * N) mod D = 2 * r)
      by (symmetry; apply (Z.mod_unique _ D (2 * q) (2 * r)); lia).
    rewrite Hq, Hm. destruct (Z.eqb_spec r 0), (Z.eqb_spec (2 * r) 0); lia.
  - assert (Hq : (2 * N) / D = 2 * q + 1)
      by (symmetry; apply (Z.div_unique _ D _ (2 * r - D)); lia).
    assert (Hm : (2 * N) mod D = 2 * r - D)
      by (symmetry; apply (Z.mod_unique _ D (2 * q + 1) (2 * r - D)); lia).
    rewrite Hq, Hm. destruct (Z.eqb_spec r 0), (Z.eqb_spec (2 * r - D) 0); lia.
Qed.

Lemma new_location_code D r :
  0 < D -> 0 <= r < D ->
  loc_code (new_location D r) =
  if r =? 0 then 0 else match 2 * r ?= D with Lt => 1 | Eq => 2 | Gt => 3 end.
Proof.
  intros HD Hr. unfold new_location, new_location_even, new_location_odd.
  destruct (Z.even D) eqn:Hev; destruct (Z.eqb_spec r 0) as [-> | Hne]; try reflexivity.
  assert (Hodd : Z.odd D = true) by (rewrite <- Z.negb_even, Hev; reflexivity).
  apply Z.odd_spec in Hodd. destruct Hodd as [k Hk].
  cbn [loc_code].
  destruct (Z.compare_spec (2 * r + 1) D), (Z.compare_spec (2 * r) D);
    try reflexivity; lia.
Qed.

Lemma div_finite_model mx ex my ey :
  let e' := div_exp (Zpos mx) ex (Zpos my) ey in
  let N := Zpos mx * 1 * 2 ^ (ex - ey - e') in
  fine (sticky N (Zpos my)) e' /\
  SFdiv prec emax (S754_finite false mx ex) (S754_finite false my ey)
  = pack false (rnd_q N (Zpos my) e').
Proof.
  intros e' N.
  assert (Hs : 0 <= ex - ey - e') by (unfold e', div_exp; lia).
  assert (Hp : 0 < 2 ^ (ex - ey - e')) by pow2_pos.
  assert (HN : 0 < N) by (unfold N; nia).
  assert (Hcore : SFdiv_core_binary prec emax (Zpos mx) ex (Zpos my) ey
                  = (N / Zpos my, e', new_location (Zpos my) (N mod Zpos my))).
  { unfold SFdiv_core_binary. fold (div_exp (Zpos mx) ex (Zpos my) ey). fold e'.
    assert (Hm' : match ex - ey - e' with
                  | 0 => Zpos mx
                  | Zpos _ => Z.shiftl (Zpos mx) (ex - ey - e')
                  | Zneg _ => 0
                  end = N).
    { unfold N. destruct (ex - ey - e') as [|p|p] eqn:Es; [simpl; lia | | lia].
      rewrite Z.shiftl_mul_pow2 by lia. lia. }
    rewrite Hm'. unfold Z.div, Z.modulo.
    destruct (Z.div_eucl N (Zpos my)); reflexivity. }
  pose proof (Z.div_mod N (Zpos my) ltac:(lia)) as Hdm.
  pose proof (Z.mod_pos_bound N (Zpos my) ltac:(lia)) as Hmb.
  assert (Hq : 0 <= N / Zpos my) by (apply Z.div_pos; lia).
  assert (Hcode : 4 * (N / Zpos my) + loc_code (new_location (Zpos my) (N mod Zpos my))
                  = sticky N (Zpos my)).
  { rewrite new_location_code by lia. symmetry. apply sticky_divmod; lia. }
  assert (Hf : e' <= fexp prec emax (Zdigits2 (N / Zpos my) + e')).
  { assert (Hd : Zdigits2 (Zpos mx) + (ex - ey - e') - Zdigits2 (Zpos my)
                 <= Zdigits2 (N / Zpos my)).
    { set (k := Zdigits2 (Zpos mx) + (ex - ey - e') - Zdigits2 (Zpos my)).
      pose proof (Zdigits2_nonneg (N / Zpos my)).
      destruct (Z_le_gt_dec k 0); [lia|].
      apply Zdigits2_ge; try lia.
      apply Z.div_le_lower_bound; [lia|].
      pose proof (Zdigits2_bounds (Zpos mx) ltac:(lia)) as [Hlx _].
      pose proof (Zdigits2_bounds (Zpos my) ltac:(lia)) as [_ Hhy].
      pose proof (Zdigits2_pos (Zpos mx) ltac:(lia)).
      pose proof (Zdigits2_pos (Zpos my) ltac:(lia)).
      assert (Hpk : 0 < 2 ^ (k - 1)) by pow2_pos.
      assert (Hb1 : Zpos my * 2 ^ (k - 1) <= 2 ^ Zdigits2 (Zpos my) * 2 ^ (k - 1))
        by (apply Z.mul_le_mono_nonneg_r; lia).
      rewrite <- Z.pow_add_r in Hb1 by lia.
      replace (Zdigits2 (Zpos my) + (k - 1))
        with ((Zdigits2 (Zpos mx) - 1) + (ex - ey - e')) in Hb1 by (unfold k; lia).
      rewrite Z.pow_add_r in Hb1 by lia.
      assert (Hb2 : 2 ^ (Zdigits2 (Zpos mx) - 1) * 2 ^ (ex - ey - e') <= N)
        by (unfold N; apply Z.mul_le_mono_nonneg_r; lia).
      lia. }
    eapply Z.le_trans; [| apply fexp_mono with (D1 := Zdigits2 (Zpos mx) + ex - (Zdigits2 (Zpos my) + ey)); lia].
    unfold e', div_exp. lia. }
  split.
  - unfold fine. rewrite sticky_div4 by lia. exact Hf.
  - cbn [SFdiv xorb]. rewrite Hcore. rewrite bra_fine; [| exact Hq | exact Hf].
    unfold rnd_q. rewrite Hcode. reflexivity.
Qed.

Lemma div_exp_le mx ex my ey : div_exp mx ex my ey <= ex - ey.
Proof. unfold div_exp. lia. Qed.

Lemma mul_finite_mono mx ex my ey mc ec :
  canonical (Zpos mx) ex -> canonical (Zpos my) ey -> canonical (Zpos mc) ec ->
  lex_le (Zpos mx) ex (Zpos my) ey ->
  SFleb (SFmul prec emax (S754_finite false mx ex) (S754_finite false mc ec))
        (SFmul prec emax (S754_finite false my ey) (S754_finite false mc ec)) = true.
Proof.
  intros Hx Hy Hc Hlex.
  destruct (mul_finite_model mx ex mc ec Hx Hc) as [Hfx ->].
  destruct (mul_finite_model my ey mc ec Hy Hc) as [Hfy ->].
  apply pack_leb.
  - pose proof (scaled_mono (Zpos mc) (- ec) 1 (Zpos mx) ex (Zpos my) ey (ex + ec) (ey + ec)) as Hm.
    replace (ex - - ec - (ex + ec)) with 0 in Hm by lia.
    replace (ey - - ec - (ey + ec)) with 0 in Hm by lia.
    rewrite !Z.pow_0_r, !Z.mul_1_r in Hm.
    apply Hm; auto; lia.
  - unfold rnd_q.
    apply round_fine_canonical; [apply sticky_nonneg; lia | exact Hfy].
Qed.

Lemma div_finite_mono mx ex my ey mc ec :
  canonical (Zpos mx) ex -> canonical (Zpos my) ey ->
  lex_le (Zpos mx) ex (Zpos my) ey ->
  SFleb (SFdiv prec emax (S754_finite false mx ex) (S754_finite false mc ec))
        (SFdiv prec emax (S754_finite false my ey) (S754_finite false mc ec)) = true.
Proof.
  intros Hx Hy Hlex.
  destruct (div_finite_model mx ex mc ec) as [Hfx ->].
  destruct (div_finite_model my ey mc ec) as [Hfy ->].
  pose proof (div_exp_le (Zpos mx) ex (Zpos mc) ec).
  pose proof (div_exp_le (Zpos my) ey (Zpos mc) ec).
  apply pack_leb.
  - apply scaled_mono; auto; lia.
  - unfold rnd_q.
    apply round_fine_canonical; [|exact Hfy].
    apply sticky_nonneg; [lia|].
    apply Z.mul_nonneg_nonneg; [lia | apply Z.pow_nonneg; lia].
Qed.

(** *** Monotonicity on the non-negative numbers *)

Lemma pack_rnd_q_nonneg N D e :
  0 <= N -> 0 < D -> fine (sticky N D) e -> nonneg_float (pack false (rnd_q N D e)).
Proof.
  intros HN HD Hf. unfold rnd_q.
  pose proof (round_fine_canonical (sticky N D) e (sticky_nonneg N D HD HN) Hf) as (H0 & Hc & _).
  now apply pack_nonneg.
Qed.

Lemma mul_nonneg x c :
  nonneg_float x -> positive_finite c -> nonneg_float (SFmul prec emax x c).
Proof.
  destruct c as [| | |[] mc ec]; try contradiction. intros Hx [Hc _].
  destruct x as [[]|[]| |[] mx ex]; try contradiction; try exact I.
  destruct Hx as [Hx _].
  destruct (mul_finite_model mx ex mc ec Hx Hc) as [Hf ->].
  apply pack_rnd_q_nonneg; auto; lia.
Qed.

Lemma div_nonneg x c :
  nonneg_float x -> positive_finite c -> nonneg_float (SFdiv prec emax x c).
Proof.
  destruct c as [| | |[] mc ec]; try contradiction. intros Hx [Hc _].
  destruct x as [[]|[]| |[] mx ex]; try contradiction; try exact I.
  destruct (div_finite_model mx ex mc ec) as [Hf ->].
  apply pack_rnd_q_nonneg; auto; try lia.
  all: apply Z.mul_nonneg_nonneg; [lia | apply Z.pow_nonneg; lia].
Qed.

Lemma leb_nonneg_cases x y :
  nonneg_float x -> nonneg_float y -> SFleb x y = true ->
  x = S754_zero false \/ y = S754_infinity false \/
  exists mx ex my ey,
    x = S754_finite false mx ex /\ y = S754_finite false my ey /\
    canonical (Zpos mx) ex /\ canonical (Zpos my) ey /\
    lex_le (Zpos mx) ex (Zpos my) ey /\ ex <= 971 /\ ey <= 971.
Proof.
  destruct x as [[]|[]| |[] mx ex]; try contradiction;
  destruct y as [[]|[]| |[] my ey]; try contradiction; intros Hx Hy Hle;
    try (left; reflexivity); try (right; left; reflexivity); try discriminate.
  right; right. destruct Hx as [Hcx Hbx], Hy as [Hcy Hby].
  apply leb_finite_inv in Hle.
  exists mx, ex, my, ey.
  split; [reflexivity|]. split; [reflexivity|].
  split; [exact Hcx|]. split; [exact Hcy|]. split; [exact Hle|]. split; assumption.
Qed.

Lemma mul_mono x y c :
  nonneg_float x -> nonneg_float y -> positive_finite c -> SFleb x y = true ->
  SFleb (SFmul prec emax x c) (SFmul prec emax y c) = true.
Proof.
  intros Hx Hy Hc Hle.
  pose proof (mul_nonneg x c Hx Hc) as Hnx. pose proof (mul_nonneg y c Hy Hc) as Hny.
  destruct (leb_nonneg_cases x y Hx Hy Hle) as [-> | [-> | (mx & ex & my & ey & -> & -> & Hcx & Hcy & Hlex & _)]].
  - destruct c as [| | |[] mc ec]; try contradiction.
    cbn [SFmul xorb]. now apply leb_zero_nonneg.
  - destruct c as [| | |[] mc ec]; try contradiction.
    cbn [SFmul xorb]. now apply leb_nonneg_inf.
  - destruct c as [| | |[] mc ec]; try contradiction. destruct Hc as [Hc _].
    now apply mul_finite_mono.
Qed.

Lemma div_mono x y c :
  nonneg_float x -> nonneg_float y -> positive_finite c -> SFleb x y = true ->
  SFleb (SFdiv prec emax x c) (SFdiv prec emax y c) = true.
Proof.
  intros Hx Hy Hc Hle.
  pose proof (div_nonneg x c Hx Hc) as Hnx. pose proof (div_nonneg y c Hy Hc) as Hny.
  destruct (leb_nonneg_cases x y Hx Hy Hle) as [-> | [-> | (mx & ex & my & ey & -> & -> & Hcx & Hcy & Hlex & _)]].
  - destruct c as [| | |[] mc ec]; try contradiction.
    cbn [SFdiv xorb]. now apply leb_zero_nonneg.
  - destruct c as [| | |[] mc ec]; try contradiction.
    cbn [SFdiv xorb]. now apply leb_nonneg_inf.
  - destruct c as [| | |[] mc ec]; try contradiction.
    now apply div_finite_mono.
Qed.

(** *** Round *)

Lemma round_half_up_bounds m k :
  1 <= k <= 52 -> 2 ^ 52 <= m < 2 ^ 53 -> 2 ^ 52 <= round_half_up m k <= 2 ^ 53.
Proof.
  intros Hk Hm. unfold round_half_up.
  assert (Hb : 2 ^ k = 2 * 2 ^ (k - 1)).
  { rewrite <- Z.pow_succ_r by lia. f_equal. lia. }
  assert (Ha : 2 ^ 52 = 2 ^ (52 - k) * 2 ^ k).
  { rewrite <- Z.pow_add_r by lia. f_equal. lia. }
  assert (Ha' : 2 ^ 53 = 2 * 2 ^ 52) by reflexivity.
  set (a := 2 ^ (52 - k)) in *. set (b := 2 ^ k) in *. set (h := 2 ^ (k - 1)) in *.
  assert (0 < h) by pow2_pos.
  assert (0 < a) by pow2_pos.
  assert (Hlo : a <= (m + h) / b) by (apply Z.div_le_lower_bound; nia).
  assert (Hhi : (m + h) / b < 2 * a + 1) by (apply Z.div_lt_upper_bound; nia).
  rewrite Ha', Ha. nia.
Qed.

Lemma round_half_up_mono m1 m2 k :
  0 <= k -> m1 <= m2 -> round_half_up m1 k <= round_half_up m2 k.
Proof.
  intros Hk Hm. unfold round_half_up.
  assert (0 < 2 ^ k) by pow2_pos.
  apply Z.mul_le_mono_nonneg_r; [lia|]. apply Z.div_le_mono; lia.
Qed.

(** A canonical positive number: its digits, bounds, and rounding. *)
Lemma canonical_facts m e :
  0 < m -> canonical m e ->
  Zdigits2 m <= 53 /\ -1074 <= e /\ 0 < Zdigits2 m /\
  (-1074 < e -> Zdigits2 m = 53 /\ 2 ^ 52 <= m < 2 ^ 53) /\
  (e < 0 -> 0 < Zdigits2 m + e ->
   Zdigits2 m = 53 /\ 2 ^ 52 <= round_half_up m (- e) <= 2 ^ 53).
Proof.
  intros Hm Hc. destruct (canonical_digits _ _ Hc) as (Hd & He & Hn).
  pose proof (Zdigits2_pos m Hm) as Hp.
  pose proof (Zdigits2_bounds m Hm) as Hb.
  assert (Hnorm : -1074 < e -> Zdigits2 m = 53 /\ 2 ^ 52 <= m < 2 ^ 53).
  { intros H. specialize (Hn H). rewrite Hn in Hb. change (53 - 1) with 52 in Hb. auto. }
  split; [lia|]. split; [lia|]. split; [lia|]. split; [exact Hnorm|].
  intros H1 H2. destruct (Hnorm ltac:(lia)) as [H53 Hr].
  split; [exact H53|]. apply round_half_up_bounds; lia.
Qed.

Lemma Round_pair_mono mx ex my ey :
  0 < mx -> 0 < my -> canonical mx ex -> canonical my ey ->
  lex_le mx ex my ey ->
  pair_le (Round_pair mx ex) (Round_pair my ey).
Proof.
  intros Hx Hy Hcx Hcy Hlex.
  destruct (canonical_facts _ _ Hx Hcx) as (Hdx & Hex & Hpx & Hnx & HCx).
  destruct (canonical_facts _ _ Hy Hcy) as (Hdy & Hey & Hpy & Hny & HCy).
  assert (HM : ex = ey -> mx <= my ->
               round_half_up mx (- ex) <= round_half_up my (- ey)).
  { intros -> Hle. destruct (Z_le_gt_dec 0 (- ey)).
    - apply round_half_up_mono; lia.
    - unfold round_half_up. rewrite !(Z.pow_neg_r 2 (- ey)) by lia.
      rewrite !Z.div_0_r. lia. }
  unfold Round_pair, pair_le, lex_le in *.
  set (Mx := round_half_up mx (- ex)) in *. set (My := round_half_up my (- ey)) in *.
  destruct (Z.leb_spec 0 ex), (Z.leb_spec 0 ey);
    cbv zeta;
    destruct (Z.ltb_spec (Zdigits2 mx + ex) 0), (Z.ltb_spec (Zdigits2 my + ey) 0);
    destruct (Z.eqb_spec (Zdigits2 mx + ex) 0), (Z.eqb_spec (Zdigits2 my + ey) 0);
    destruct (Z.eqb_spec Mx (2 ^ 53)), (Z.eqb_spec My (2 ^ 53));
    cbn [fst snd]; try lia.
  all: try (specialize (HCx ltac:(lia) ltac:(lia)));
       try (specialize (HCy ltac:(lia) ltac:(lia))); try lia.
  all: try (specialize (Hny ltac:(lia))); try lia.
Qed.

Lemma Round_pack m e :
  canonical (Zpos m) e -> e <= 971 ->
  Round (S754_finite false m e) = pack false (Round_pair (Zpos m) e) /\
  0 <= fst (Round_pair (Zpos m) e) /\
  canonical (fst (Round_pair (Zpos m) e)) (snd (Round_pair (Zpos m) e)).
Proof.
  intros Hc He.
  destruct (canonical_facts (Zpos m) e ltac:(lia) Hc) as (Hd & Hlo & Hp & Hn & HC).
  unfold Round, Round_pair. cbn [Zdigits2].
  destruct (Z.leb_spec 0 e) as [H0 | H0].
  { cbn [fst snd]. unfold pack; cbn [fst snd]. change (emax - prec) with 971.
    destruct (Z.leb_spec e 971); [|lia].
    split; [reflexivity|]. split; [lia | exact Hc]. }
  cbv zeta. cbn [Zdigits2] in *.
  destruct (Z.ltb_spec (Zpos (digits2_pos m) + e) 0) as [H1 | H1].
  { cbn [fst snd]. split; [reflexivity|]. split; [lia | reflexivity]. }
  destruct (Z.eqb_spec (Zpos (digits2_pos m) + e) 0) as [H2 | H2].
  { cbn [fst snd]. split; [reflexivity|]. split; [lia | reflexivity]. }
  destruct (HC ltac:(lia) ltac:(lia)) as [H53 HM].
  fold (round_half_up (Zpos m) (- e)).
  set (M := round_half_up (Zpos m) (- e)) in *.
  unfold of_aligned. change (2 ^ prec) with (2 ^ 53).
  destruct M as [|p|p] eqn:EM; try lia.
  destruct (Z.eqb_spec (Zpos p) (2 ^ 53)) as [Hcarry | Hno]; cbn [fst snd].
  - injection Hcarry as ->. unfold pack; cbn [fst snd]. change (emax - prec) with 971.
    destruct (Z.leb_spec (e + 1) 971); [|lia].
    split; [reflexivity|]. split; [lia|].
    unfold canonical. rewrite fexp_eq. change (Zdigits2 (2 ^ 52)) with 53. lia.
  - unfold pack; cbn [fst snd]. change (emax - prec) with 971.
    destruct (Z.leb_spec e 971); [|lia].
    split; [reflexivity|]. split; [lia|].
    unfold canonical. rewrite fexp_eq.
    assert (Zdigits2 (Zpos p) = 53).
    { apply Z.le_antisymm; [apply Zdigits2_le | apply Zdigits2_ge]; lia. }
    lia.
Qed.

Lemma Round_nonneg x : nonneg_float x -> nonneg_float (Round x).
Proof.
  destruct x as [[]|[]| |[] m e]; try contradiction; try (intros _; exact I).
  intros [Hc He]. destruct (Round_pack m e Hc He) as (-> & H0 & Hc').
  now apply pack_nonneg.
Qed.

Lemma Round_mono x y :
  nonneg_float x -> nonneg_float y -> SFleb x y = true ->
  SFleb (Round x) (Round y) = true.
Proof.
  intros Hx Hy Hle.
  pose proof (Round_nonneg x Hx) as Hnx. pose proof (Round_nonneg y Hy) as Hny.
  destruct (leb_nonneg_cases x y Hx Hy Hle)
    as [-> | [-> | (mx & ex & my & ey & -> & -> & Hcx & Hcy & Hlex & Hbx & Hby)]].
  - now apply leb_zero_nonneg.
  - now apply leb_nonneg_inf.
  - destruct (Round_pack mx ex Hcx Hbx) as (-> & _ & _).
    destruct (Round_pack my ey Hcy Hby) as (-> & H0 & _).
    apply pack_leb; [|exact H0].
    apply Round_pair_mono; auto; lia.
Qed.

(** *** Conversion and subtraction *)

Lemma iter_xO m d : Zpos (Pos.iter xO m d) = Zpos m * 2 ^ Zpos d.
Proof.
  induction d as [|d IH] using Pos.peano_ind.
  - cbn [Pos.iter]. rewrite Pos2Z.inj_xO. change (2 ^ 1) with 2. ring.
  - rewrite Pos.iter_succ, Pos2Z.inj_xO, IH, Pos2Z.inj_succ, Z.pow_succ_r by lia. ring.
Qed.

Lemma shl_align_spec mx ex ex' :
  snd (shl_align mx ex ex') = Z.min ex ex' /\
  Zpos (fst (shl_align mx ex ex')) = Zpos mx * 2 ^ (ex - Z.min ex ex').
Proof.
  unfold shl_align. destruct (ex' - ex) as [|d|d] eqn:Hd; cbn [fst snd].
  - replace (Z.min ex ex') with ex by lia. rewrite Z.sub_diag. simpl. lia.
  - replace (Z.min ex ex') with ex by lia. rewrite Z.sub_diag. simpl. lia.
  - replace (Z.min ex ex') with ex' by lia. rewrite iter_xO.
    split; [reflexivity|]. f_equal. f_equal. lia.
Qed.

Lemma Zdigits2_mul_pow2 m k : 0 < m -> 0 <= k -> Zdigits2 (m * 2 ^ k) = Zdigits2 m + k.
Proof.
  intros Hm Hk.
  assert (0 < 2 ^ k) by pow2_pos.
  rewrite (Zdigits2_shift (m * 2 ^ k) k Hk); rewrite Z.div_mul by lia; [reflexivity | lia].
Qed.

(** The rounding of an exact dyadic number [m * 2^e]. *)
Lemma binary_round_model s m e :
  let E := fexp prec emax (Zdigits2 (Zpos m) + e) in
  exists mm ee,
    binary_round prec emax s m e = pack s (mm, ee) /\
    0 <= mm /\ canonical mm ee /\ E <= ee <= E + 1 /\
    (-1074 <= Zdigits2 (Zpos m) + e - 53 -> 2 ^ 52 <= mm).
Proof.
  intros E. unfold binary_round.
  change (Zpos (digits2_pos m)) with (Zdigits2 (Zpos m)). fold E.
  destruct (shl_align_spec m e E) as [Hez Hmz].
  destruct (shl_align m e E) as [mz ez]. cbn [fst snd] in Hez, Hmz.
  assert (Hk : 0 <= e - Z.min e E) by lia.
  assert (Hd : Zdigits2 (Zpos mz) + ez = Zdigits2 (Zpos m) + e).
  { rewrite Hmz, Zdigits2_mul_pow2 by lia. lia. }
  assert (Hf : ez <= fexp prec emax (Zdigits2 (Zpos mz) + ez)) by (rewrite Hd; fold E; lia).
  rewrite bra_fine; [| lia | exact Hf]. cbn [loc_code]. rewrite Z.add_0_r.
  assert (HT4 : 4 * Zpos mz / 4 = Zpos mz) by (rewrite Z.mul_comm; apply Z.div_mul; lia).
  pose proof (round_fine_canonical (4 * Zpos mz) ez ltac:(lia)) as Hc.
  unfold fine in Hc. rewrite HT4, Hd in Hc. specialize (Hc ltac:(fold E; lia)).
  cbv zeta in Hc. fold E in Hc. destruct Hc as (H0 & Hcan & Hee & Hn).
  exists (fst (round_fine (4 * Zpos mz) ez)), (snd (round_fine (4 * Zpos mz) ez)).
  rewrite <- surjective_pairing. repeat split; auto; lia.
Qed.

Lemma pack_finite s mm ee :
  0 < mm -> ee <= 971 -> exists p, mm = Zpos p /\ pack s (mm, ee) = S754_finite s p ee.
Proof.
  intros Hm He. destruct mm as [|p|p]; try lia. exists p. split; [reflexivity|].
  unfold pack; cbn [fst snd]. change (emax - prec) with 971.
  destruct (Z.leb_spec ee 971); [reflexivity | lia].
Qed.

Lemma binary_round_ranged s m e lo hi :
  -1074 <= Zdigits2 (Zpos m) + e - 53 ->
  lo <= Zdigits2 (Zpos m) + e - 53 -> Zdigits2 (Zpos m) + e - 53 + 1 <= hi -> hi <= 971 ->
  exists p ee, binary_round prec emax s m e = S754_finite s p ee /\
               canonical (Zpos p) ee /\ lo <= ee <= hi.
Proof.
  intros Hn Hlo Hhi Hb.
  destruct (binary_round_model s m e) as (mm & ee & -> & H0 & Hc & Hee & Hnm).
  cbv zeta in Hee. rewrite fexp_eq in Hee. specialize (Hnm Hn).
  destruct (pack_finite s mm ee ltac:(lia) ltac:(lia)) as (p & -> & ->).
  exists p, ee. repeat split; auto; lia.
Qed.

Lemma of_Z_positive_ranged n :
  0 < n < 2 ^ 64 ->
  exists m e, of_Z n = S754_finite false m e /\ canonical (Zpos m) e /\ -52 <= e <= 12.
Proof.
  intros Hn. destruct n as [|p|p]; try lia.
  unfold of_Z, binary_normalize.
  pose proof (Zdigits2_pos (Zpos p) ltac:(lia)).
  assert (Zdigits2 (Zpos p) <= 64) by (apply Zdigits2_le; lia).
  destruct (binary_round_ranged false p 0 (-52) 12) as (m & e & -> & Hc & He); try lia.
  exists m, e. auto.
Qed.

Lemma of_Z_ranged n :
  0 <= n < 2 ^ 64 ->
  of_Z n = S754_zero false \/
  exists m e, of_Z n = S754_finite false m e /\ canonical (Zpos m) e /\ -52 <= e <= 12.
Proof.
  intros Hn. destruct (Z.eq_dec n 0) as [-> | Hne]; [left; reflexivity | right].
  apply of_Z_positive_ranged. lia.
Qed.

Lemma sub_of_Z_ranged a b :
  0 <= a < 2 ^ 64 -> 0 <= b < 2 ^ 64 ->
  ranged (-104) 77 (SFsub prec emax (of_Z a) (of_Z b)).
Proof.
  intros Ha Hb.
  destruct (of_Z_ranged a Ha) as [-> | (mx & ex & -> & Hcx & Hex)];
  destruct (of_Z_ranged b Hb) as [-> | (my & ey & -> & Hcy & Hey)].
  - left. reflexivity.
  - right. exists true, my, ey. cbn. repeat split; auto; lia.
  - right. exists false, mx, ex. cbn. repeat split; auto; lia.
  - cbn [SFsub cond_Zopp].
    destruct (shl_align_spec mx ex (Z.min ex ey)) as [_ Hx].
    destruct (shl_align_spec my ey (Z.min ex ey)) as [_ Hy].
    rewrite Hx, Hy.
    replace (Z.min ex (Z.min ex ey)) with (Z.min ex ey) by lia.
    replace (Z.min ey (Z.min ex ey)) with (Z.min ex ey) by lia.
    set (ez := Z.min ex ey).
    destruct (canonical_digits _ _ Hcx) as (Hdx & _).
    destruct (canonical_digits _ _ Hcy) as (Hdy & _).
    assert (Hbx : 0 < Zpos mx * 2 ^ (ex - ez) < 2 ^ 117).
    { assert (Zpos mx < 2 ^ 53) by (apply Zdigits2_le; lia).
      assert (0 < 2 ^ (ex - ez)) by pow2_pos.
      assert (2 ^ (ex - ez) <= 2 ^ 64) by (apply Z.pow_le_mono_r; lia).
      change (2 ^ 117) with (2 ^ 53 * 2 ^ 64). nia. }
    assert (Hby : 0 < Zpos my * 2 ^ (ey - ez) < 2 ^ 117).
    { assert (Zpos my < 2 ^ 53) by (apply Zdigits2_le; lia).
      assert (0 < 2 ^ (ey - ez)) by pow2_pos.
      assert (2 ^ (ey - ez) <= 2 ^ 64) by (apply Z.pow_le_mono_r; lia).
      change (2 ^ 117) with (2 ^ 53 * 2 ^ 64). nia. }
    set (X := Zpos mx * 2 ^ (ex - ez)) in *. set (Y := Zpos my * 2 ^ (ey - ez)) in *.
    unfold binary_normalize.
    destruct (X - Y) as [|p|p] eqn:Hdiff; [left; reflexivity | right | right].
    + pose proof (Zdigits2_pos (Zpos p) ltac:(lia)).
      assert (Zdigits2 (Zpos p) <= 117) by (apply Zdigits2_le; lia).
      destruct (binary_round_ranged false p ez (-104) 77) as (m & e & -> & Hc & He); try lia.
      exists false, m, e. auto.
    + pose proof (Zdigits2_pos (Zpos p) ltac:(lia)).
      assert (Zdigits2 (Zpos p) <= 117) by (apply Zdigits2_le; lia).
      destruct (binary_round_ranged true p ez (-104) 77) as (m & e & -> & Hc & He); try lia.
      exists true, m, e. auto.
Qed.

Lemma ranged_positive lo hi x :
  ranged lo hi x -> SFltb (S754_zero false) x = true ->
  exists m e, x = S754_finite false m e /\ canonical (Zpos m) e /\ lo <= e <= hi.
Proof.
  intros [-> | (s & m & e & -> & Hc & He)] Hlt; [discriminate|].
  destruct s; [discriminate|]. exists m, e. auto.
Qed.

(** A quotient of two ranged positive numbers does not overflow. *)
Lemma div_ranged_finite md ed ms es :
  canonical (Zpos md) ed -> canonical (Zpos ms) es -> ed - es <= 900 ->
  SFdiv prec emax (S754_finite false md ed) (S754_finite false ms es) = S754_zero false \/
  positive_finite (SFdiv prec emax (S754_finite false md ed) (S754_finite false ms es)).
Proof.
  intros Hcd Hcs Hbound.
  destruct (div_finite_model md ed ms es) as [Hf ->]. cbv zeta in *.
  set (e' := div_exp (Zpos md) ed (Zpos ms) es) in *.
  set (N := Zpos md * 1 * 2 ^ (ed - es - e')) in *.
  pose proof (div_exp_le (Zpos md) ed (Zpos ms) es) as He'. fold e' in He'.
  assert (Hp : 0 < 2 ^ (ed - es - e')) by pow2_pos.
  assert (HN : 0 < N) by (unfold N; nia).
  unfold rnd_q.
  pose proof (round_fine_canonical (sticky N (Zpos ms)) e'
                (sticky_nonneg N (Zpos ms) ltac:(lia) ltac:(lia)) Hf) as (H0 & Hc & Hee & _).
  cbv zeta in Hee. rewrite sticky_div4 in Hee by lia.
  assert (Hdq : Zdigits2 (N / Zpos ms) <= 53 + (ed - es - e')).
  { apply Zdigits2_le; [apply Z.div_pos; lia | lia |].
    destruct (canonical_digits _ _ Hcd) as (Hdd & _).
    assert (Zpos md < 2 ^ 53) by (apply Zdigits2_le; lia).
    assert (N / Zpos ms <= N) by (apply Z.div_le_upper_bound; nia).
    rewrite Z.pow_add_r by lia. unfold N in *. nia. }
  rewrite fexp_eq in Hee.
  set (r := round_fine (sticky N (Zpos ms)) e') in *.
  destruct r as [mm ee] eqn:Er. cbn [fst snd] in *.
  destruct mm as [|p|p]; [left; reflexivity | right | lia].
  unfold pack; cbn [fst snd]. change (emax - prec) with 971.
  destruct (Z.leb_spec ee 971); [|lia]. split; [exact Hc | lia].
Qed.

(** *** The percentage *)

Lemma positive_finite_nonneg x : positive_finite x -> nonneg_float x.
Proof. destruct x as [| | |[] m e]; simpl; tauto. Qed.

Lemma of_Z_positive n : 0 < n < 2 ^ 64 -> positive_finite (of_Z n).
Proof.
  intros Hn. destruct (of_Z_positive_ranged n Hn) as (m & e & -> & Hc & He).
  split; [exact Hc | lia].
Qed.

Lemma c100_positive : positive_finite c100.
Proof. apply of_Z_positive. lia. Qed.

Lemma c1000_positive : positive_finite c1000.
Proof. apply of_Z_positive. lia. Qed.

Lemma to_millis_nonneg p : nonneg_float p -> nonneg_float (to_millis p).
Proof.
  intros Hp. unfold to_millis, div, mul.
  apply div_nonneg; [|exact c1000_positive].
  apply Round_nonneg, mul_nonneg; [exact Hp | exact c1000_positive].
Qed.

Lemma to_millis_mono p1 p2 :
  nonneg_float p1 -> nonneg_float p2 -> leb p1 p2 = true ->
  leb (to_millis p1) (to_millis p2) = true.
Proof.
  intros H1 H2 Hle. unfold to_millis, leb, div, mul.
  pose proof c1000_positive as Hc.
  apply div_mono; auto using Round_nonneg, mul_nonneg.
  apply Round_mono; auto using mul_nonneg.
  apply mul_mono; auto.
Qed.

Lemma percent_of_positive d sd c :
  ranged (-104) 77 d -> ranged (-104) 77 sd ->
  c = zero \/ positive_finite c ->
  ltb zero sd = true -> ltb zero d = true ->
  nonneg_float (percent_of d sd c) /\
  (c = zero -> percent_of d sd c = zero).
Proof.
  intros Hd Hsd Hc Hs Hp. unfold percent_of. rewrite Hs, Hp. cbn [andb].
  destruct (ranged_positive _ _ _ Hd Hp) as (md & ed & -> & Hcd & Hed).
  destruct (ranged_positive _ _ _ Hsd Hs) as (ms & es & -> & Hcs & Hes).
  pose proof c100_positive as H100.
  unfold mul, div.
  destruct (div_ranged_finite md ed ms es Hcd Hcs ltac:(lia)) as [Hq | Hq].
  - rewrite Hq. destruct Hc as [-> | Hc].
    + split; [| intros _]; reflexivity || (cbn; exact I).
    + split; [| intros ->; contradiction].
      apply mul_nonneg; [|exact H100]. apply mul_nonneg; [exact I | exact Hc].
  - set (q := SFdiv prec emax (S754_finite false md ed) (S754_finite false ms es)) in *.
    destruct Hc as [-> | Hc].
    + assert (Hz : SFmul prec emax q zero = zero).
      { destruct q as [| | |[] mq eq]; try contradiction. reflexivity. }
      rewrite Hz. split; [| intros _]; reflexivity || (cbn; exact I).
    + split; [| intros ->; contradiction].
      apply mul_nonneg; [|exact H100].
      apply mul_nonneg; [|exact Hc]. now apply positive_finite_nonneg.
Qed.

Lemma percent_of_nonneg d sd c :
  ranged (-104) 77 d -> ranged (-104) 77 sd ->
  c = zero \/ positive_finite c ->
  nonneg_float (percent_of d sd c).
Proof.
  intros Hd Hsd Hc.
  destruct (ltb zero sd) eqn:Hs; [destruct (ltb zero d) eqn:Hp|].
  - now apply percent_of_positive.
  - unfold percent_of. rewrite Hs, Hp. exact I.
  - unfold percent_of. rewrite Hs. exact I.
Qed.

Lemma leb_positive_right lo hi d1 d2 :
  ranged lo hi d1 -> ranged lo hi d2 ->
  ltb zero d1 = true -> leb d1 d2 = true -> ltb zero d2 = true.
Proof.
  intros H1 H2 Hp Hle.
  destruct (ranged_positive _ _ _ H1 Hp) as (m1 & e1 & -> & _).
  destruct H2 as [-> | (s & m & e & -> & _)]; [discriminate|].
  destruct s; [discriminate | reflexivity].
Qed.

Lemma percent_of_mono d1 d2 sd c :
  ranged (-104) 77 d1 -> ranged (-104) 77 d2 -> ranged (-104) 77 sd ->
  c = zero \/ positive_finite c ->
  ltb zero sd = true -> leb d1 d2 = true ->
  leb (percent_of d1 sd c) (percent_of d2 sd c) = true.
Proof.
  intros Hd1 Hd2 Hsd Hc Hs Hle.
  pose proof (percent_of_nonneg d2 sd c Hd2 Hsd Hc) as Hn2.
  destruct (ltb zero d1) eqn:Hp1.
  2: { unfold percent_of at 1. rewrite Hs, Hp1. cbn [andb]. now apply leb_zero_nonneg. }
  pose proof (leb_positive_right _ _ _ _ Hd1 Hd2 Hp1 Hle) as Hp2.
  destruct (percent_of_positive d1 sd c Hd1 Hsd Hc Hs Hp1) as [Hn1 Hz1].
  destruct (percent_of_positive d2 sd c Hd2 Hsd Hc Hs Hp2) as [_ Hz2].
  destruct Hc as [-> | Hc].
  - rewrite Hz1, Hz2 by reflexivity. reflexivity.
  - unfold percent_of. rewrite Hs, Hp1, Hp2. cbn [andb].
    destruct (ranged_positive _ _ _ Hd1 Hp1) as (m1 & e1 & -> & Hc1 & He1).
    destruct (ranged_positive _ _ _ Hd2 Hp2) as (m2 & e2 & -> & Hc2 & He2).
    destruct (ranged_positive _ _ _ Hsd Hs) as (ms & es & E & Hcs & Hes).
    assert (Hps : positive_finite sd) by (rewrite E; split; [exact Hcs | lia]).
    assert (Hx1 : nonneg_float (S754_finite false m1 e1)) by (split; [exact Hc1 | lia]).
    assert (Hx2 : nonneg_float (S754_finite false m2 e2)) by (split; [exact Hc2 | lia]).
    pose proof c100_positive as H100.
    unfold leb, mul, div.
    apply mul_mono; auto using mul_nonneg, div_nonneg.
    apply mul_mono; auto using div_nonneg.
    apply div_mono; auto.
Qed.

(** ** Absolute CPU: monotonicity *)

Lemma percent_eq pStats stats :
  percent pStats stats =
  percent_of (cpuDelta pStats stats) (systemDelta pStats stats) (cpus stats).
Proof. reflexivity. Qed.

Lemma CalculateAbsoluteCpu_eq ru pStats stats :
  CalculateAbsoluteCpu ru pStats stats = to_millis (percent pStats stats).
Proof. reflexivity. Qed.

Lemma cpuDelta_ranged pStats stats :
  cpu_stats_in_range pStats -> cpu_stats_in_range stats ->
  ranged (-104) 77 (cpuDelta pStats stats).
Proof.
  intros (Hp & _) (Hs & _). unfold cpuDelta, sub.
  apply sub_of_Z_ranged; [exact Hs | exact Hp].
Qed.

Lemma systemDelta_ranged pStats stats :
  cpu_stats_in_range pStats -> cpu_stats_in_range stats ->
  ranged (-104) 77 (systemDelta pStats stats).
Proof.
  intros (_ & Hp & _) (_ & Hs & _). unfold systemDelta, sub.
  apply sub_of_Z_ranged; [exact Hs | exact Hp].
Qed.

Lemma cpus_shape stats :
  cpu_stats_in_range stats -> cpus stats = zero \/ positive_finite (cpus stats).
Proof.
  intros (_ & _ & Hn & Hl). unfold cpus.
  destruct (Z.eq_dec (OnlineCPUs stats) 0) as [-> | Hne].
  - change (eqb (of_Z 0) zero) with true. cbv iota.
    set (n := Z.of_nat (length (PercpuUsage (CPUUsage_ stats)))) in *.
    destruct (Z.eq_dec n 0) as [-> | Hn0]; [left; reflexivity | right].
    apply of_Z_positive. lia.
  - assert (Hpos : positive_finite (of_Z (OnlineCPUs stats))) by (apply of_Z_positive; lia).
    right. destruct (of_Z (OnlineCPUs stats)) as [| | |[] m e]; try contradiction.
    exact Hpos.
Qed.

(** C8: for a fixed strictly positive system delta and a fixed CPU count,
    [CalculateAbsoluteCpu] is monotone in the CPU usage delta: of two pairs
    of samples, the one with the larger delta never gets the smaller
    result, rounding to three decimals included. *)
Theorem CalculateAbsoluteCpu_monotone ru pStats1 stats1 pStats2 stats2 :
  cpu_stats_in_range pStats1 -> cpu_stats_in_range stats1 ->
  cpu_stats_in_range pStats2 -> cpu_stats_in_range stats2 ->
  systemDelta pStats1 stats1 = systemDelta pStats2 stats2 ->
  cpus stats1 = cpus stats2 ->
  ltb zero (systemDelta pStats1 stats1) = true ->
  leb (cpuDelta pStats1 stats1) (cpuDelta pStats2 stats2) = true ->
  leb (CalculateAbsoluteCpu ru pStats1 stats1)
      (CalculateAbsoluteCpu ru pStats2 stats2) = true.
Proof.
  intros Hp1 Hs1 Hp2 Hs2 Hsd Hcpus Hpos Hle.
  rewrite !CalculateAbsoluteCpu_eq, !percent_eq, <- Hsd, <- Hcpus.
  pose proof (cpuDelta_ranged _ _ Hp1 Hs1) as Hd1.
  pose proof (cpuDelta_ranged _ _ Hp2 Hs2) as Hd2.
  pose proof (systemDelta_ranged _ _ Hp1 Hs1) as Hrs.
  pose proof (cpus_shape _ Hs1) as Hc.
  apply to_millis_mono.
  - now apply percent_of_nonneg.
  - now apply percent_of_nonneg.
  - now apply percent_of_mono.
Qed.

(** One second of a four-CPU system: 100 and then 200 units of CPU time out
    of 1000. *)
Lemma CalculateAbsoluteCpu_monotone_witness :
  let ru := {| Memory := 0; MemoryLimit := 0; CpuAbsolute := zero; Disk := 0;
               Network := {| RxBytes := 0; TxBytes := 0 |} |} in
  let before := {| CPUUsage_ := {| TotalUsage := 100; PercpuUsage := [] |};
                   SystemUsage := 1000; OnlineCPUs := 4 |} in
  let after1 := {| CPUUsage_ := {| TotalUsage := 200; PercpuUsage := [] |};
                   SystemUsage := 2000; OnlineCPUs := 4 |} in
  let after2 := {| CPUUsage_ := {| TotalUsage := 300; PercpuUsage := [] |};
                   SystemUsage := 2000; OnlineCPUs := 4 |} in
  leb (CalculateAbsoluteCpu ru before after1) (CalculateAbsoluteCpu ru before after2) = true.
Proof.
  intros ru before after1 after2.
  assert (Hr : forall t s, 0 <= t < 2 ^ 64 -> 0 <= s < 2 ^ 64 ->
            cpu_stats_in_range {| CPUUsage_ := {| TotalUsage := t; PercpuUsage := [] |};
                                  SystemUsage := s; OnlineCPUs := 4 |}).
  { intros t s Ht Hs. unfold cpu_stats_in_range, Uint64.in_range, Uint64.modulus.
    simpl. lia. }
  apply (CalculateAbsoluteCpu_monotone ru before after1 before after2);
    try (apply Hr; lia); reflexivity.
Defined.

(** ** Conversion keeps the order of the counters *)

Lemma binary_round_rnd_q s m e :
  let ez := Z.min e (fexp prec emax (Zdigits2 (Zpos m) + e)) in
  fine (sticky (Zpos m * 2 ^ (e - ez)) 1) ez /\
  binary_round prec emax s m e = pack s (rnd_q (Zpos m * 2 ^ (e - ez)) 1 ez).
Proof.
  intros ez. unfold binary_round.
  change (Zpos (digits2_pos m)) with (Zdigits2 (Zpos m)).
  set (E := fexp prec emax (Zdigits2 (Zpos m) + e)) in *.
  destruct (shl_align_spec m e E) as [Hez Hmz].
  destruct (shl_align m e E) as [mz ez']. cbn [fst snd] in Hez, Hmz.
  fold ez in Hez, Hmz. subst ez'.
  assert (Hk : 0 <= e - ez) by (unfold ez; lia).
  assert (Hd : Zdigits2 (Zpos mz) + ez = Zdigits2 (Zpos m) + e).
  { rewrite Hmz, Zdigits2_mul_pow2 by lia. lia. }
  assert (Hf : ez <= fexp prec emax (Zdigits2 (Zpos mz) + ez))
    by (rewrite Hd; fold E; unfold ez; lia).
  split.
  - unfold fine. rewrite sticky_div4, Z.div_1_r, <- Hmz by lia. exact Hf.
  - rewrite bra_fine; [| lia | exact Hf]. cbn [loc_code]. rewrite Z.add_0_r.
    unfold rnd_q. rewrite sticky_exact, <- Hmz. reflexivity.
Qed.

Lemma of_Z_mono a b : 0 <= a <= b -> b < 2 ^ 64 -> leb (of_Z a) (of_Z b) = true.
Proof.
  intros Hab Hb.
  destruct (Z.eq_dec a 0) as [-> | Ha].
  { destruct (of_Z_ranged b ltac:(lia)) as [-> | (m & e & -> & _)]; reflexivity. }
  destruct a as [|pa|pa]; try lia. destruct b as [|pb|pb]; try lia.
  unfold of_Z, binary_normalize.
  destruct (binary_round_rnd_q false pa 0) as [Hfa ->].
  destruct (binary_round_rnd_q false pb 0) as [Hfb ->].
  cbv zeta in *.
  set (ea := Z.min 0 (fexp prec emax (Zdigits2 (Zpos pa) + 0))) in *.
  set (eb := Z.min 0 (fexp prec emax (Zdigits2 (Zpos pb) + 0))) in *.
  assert (Hpa : 0 < 2 ^ (0 - ea)) by pow2_pos.
  assert (Hpb : 0 < 2 ^ (0 - eb)) by pow2_pos.
  apply pack_leb.
  - apply (rnd_q_mono _ _ 1 ea eb (Z.min ea eb)); auto; try lia; try nia.
    rewrite <- !Z.mul_assoc, <- !Z.pow_add_r by lia.
    replace (0 - ea + (ea - Z.min ea eb)) with (- Z.min ea eb) by lia.
    replace (0 - eb + (eb - Z.min ea eb)) with (- Z.min ea eb) by lia.
    apply Z.mul_le_mono_nonneg_r; [apply Z.pow_nonneg|]; lia.
  - unfold rnd_q. apply round_fine_canonical; [apply sticky_nonneg; nia | exact Hfb].
Qed.

(** The difference of two ordered positive numbers is not positive. *)
Lemma sub_finite_nonpositive mx ex my ey :
  canonical (Zpos mx) ex -> canonical (Zpos my) ey ->
  lex_le (Zpos mx) ex (Zpos my) ey ->
  leb (sub (S754_finite false mx ex) (S754_finite false my ey)) zero = true.
Proof.
  intros Hcx Hcy Hlex. unfold sub. cbn [SFsub cond_Zopp].
  destruct (shl_align_spec mx ex (Z.min ex ey)) as [_ Hx].
  destruct (shl_align_spec my ey (Z.min ex ey)) as [_ Hy].
  rewrite Hx, Hy.
  replace (Z.min ex (Z.min ex ey)) with (Z.min ex ey) by lia.
  replace (Z.min ey (Z.min ex ey)) with (Z.min ex ey) by lia.
  pose proof (canonical_value_le (Zpos mx) ex (Zpos my) ey (Z.min ex ey)
                ltac:(lia) ltac:(lia) Hcx Hcy Hlex ltac:(lia) ltac:(lia)) as Hle.
  unfold binary_normalize.
  destruct (Zpos mx * 2 ^ (ex - Z.min ex ey) - Zpos my * 2 ^ (ey - Z.min ex ey))
    as [|p|p] eqn:Hdiff; [reflexivity | lia |].
  destruct (binary_round_model true p (Z.min ex ey)) as (mm & ee & -> & H0 & _).
  unfold pack; cbn [fst snd].
  destruct mm as [|q|q]; [reflexivity | | lia].
  destruct (ee <=? emax - prec); reflexivity.
Qed.

Lemma sub_of_Z_nonpositive a b :
  0 <= a <= b -> b < 2 ^ 64 -> leb (sub (of_Z a) (of_Z b)) zero = true.
Proof.
  intros Hab Hb. pose proof (of_Z_mono a b Hab Hb) as Hle.
  destruct (of_Z_ranged a ltac:(lia)) as [Ea | (ma & ea & Ea & Hca & Hea)];
  destruct (of_Z_ranged b ltac:(lia)) as [Eb | (mb & eb & Eb & Hcb & Heb)];
    rewrite Ea, Eb in *; try reflexivity; try discriminate.
  apply sub_finite_nonpositive; auto. now apply leb_finite_inv.
Qed.

(** C5: for every pair of samples whose CPU usage delta is at most zero, or
    whose system usage delta is at most zero, [CalculateAbsoluteCpu] is
    exactly zero: the percentage is then the constant of the guard's other
    branch, not a quotient by the system delta.  This holds for the deltas
    as the function computes them, in [float64], and so for the counters
    themselves: a total usage, or a system usage, that did not advance. *)
Theorem CalculateAbsoluteCpu_nonpositive_delta ru pStats stats :
  (leb (cpuDelta pStats stats) zero = true \/
   leb (systemDelta pStats stats) zero = true ->
   percent pStats stats = zero /\ CalculateAbsoluteCpu ru pStats stats = zero) /\
  (cpu_stats_in_range pStats -> cpu_stats_in_range stats ->
   TotalUsage (CPUUsage_ stats) - TotalUsage (CPUUsage_ pStats) <= 0 \/
   SystemUsage stats - SystemUsage pStats <= 0 ->
   percent pStats stats = zero /\ CalculateAbsoluteCpu ru pStats stats = zero).
Proof.
  assert (Hfloat : leb (cpuDelta pStats stats) zero = true \/
                   leb (systemDelta pStats stats) zero = true ->
                   percent pStats stats = zero /\
                   CalculateAbsoluteCpu ru pStats stats = zero).
  { intros Hle.
    assert (Hp : percent pStats stats = zero).
    { apply percent_guard_false. destruct Hle as [Hc | Hs].
      - rewrite (ltb_zero_false_of_leb _ Hc). apply andb_false_r.
      - now rewrite (ltb_zero_false_of_leb _ Hs). }
    split; [exact Hp | now apply CalculateAbsoluteCpu_of_zero_percent]. }
  split; [exact Hfloat|].
  intros (Hpt & Hps & _) (Hst & Hss & _) Hle. apply Hfloat.
  unfold Uint64.in_range, Uint64.modulus in *.
  destruct Hle as [Hc | Hs]; [left | right].
  - unfold cpuDelta. apply sub_of_Z_nonpositive; lia.
  - unfold systemDelta. apply sub_of_Z_nonpositive; lia.
Qed.

(** A counter that went backwards, and a system counter that stood still. *)
Lemma CalculateAbsoluteCpu_nonpositive_delta_witness :
  let ru := {| Memory := 7; MemoryLimit := 9; CpuAbsolute := c100; Disk := 5;
               Network := {| RxBytes := 1; TxBytes := 2 |} |} in
  let pStats := {| CPUUsage_ := {| TotalUsage := 500; PercpuUsage := [1; 2] |};
                   SystemUsage := 1000; OnlineCPUs := 2 |} in
  let stats := {| CPUUsage_ := {| TotalUsage := 400; PercpuUsage := [1; 2] |};
                  SystemUsage := 1000; OnlineCPUs := 2 |} in
  percent pStats stats = zero /\ CalculateAbsoluteCpu ru pStats stats = zero.
Proof.
  intros ru pStats stats.
  apply (proj1 (CalculateAbsoluteCpu_nonpositive_delta ru pStats stats)).
  left. vm_compute. reflexivity.
Defined.

(** * Further properties of the code *)

(** ** Tokens *)

(** X1: [HasPermission] is exact membership in the permission list: it
    holds for a string if and only if that very string is listed, whatever
    the order or the repetitions, and never for an empty list. *)
Theorem HasPermission_exact_membership wtp permission :
  (HasPermission wtp permission = true <-> In permission (Permissions wtp)) /\
  (Permissions wtp = [] -> HasPermission wtp permission = false).
Proof.
  split; [| unfold HasPermission; now intros ->].
  unfold HasPermission. induction (Permissions wtp) as [|k ks IH]; simpl.
  - split; [discriminate | tauto].
  - destruct (String.eqb_spec k permission) as [-> | Hne].
    + split; auto.
    + rewrite IH. split; [auto | intros [Hk | Hin]; [contradiction | exact Hin]].
Qed.

Lemma HasPermission_exact_membership_witness :
  HasPermission (Sample.token 0 9000 []) "connect" = false.
Proof.
  apply (proj2 (HasPermission_exact_membership (Sample.token 0 9000 []) "connect")).
  reflexivity.
Defined.

Section ParseJWTAcceptance.
Variable jwt_Verify : list byte -> result WebsocketTokenPayload.
Variables (now1 now2 : Z) (token : list byte).

Lemma ParseJWT_Ok_inv payload :
  ParseJWT jwt_Verify now1 now2 token = Ok payload <->
  jwt_Verify token = Ok payload /\
  -15 < Int64.sub now1 (NotBefore (Payload_ payload)) /\
  Int64.sub now2 (ExpirationTime (Payload_ payload)) <= 15 /\
  HasPermission payload PermissionConnect = true.
Proof.
  unfold ParseJWT. destruct (jwt_Verify token) as [p | e].
  2: { split; [discriminate | intros [Hv _]; discriminate]. }
  destruct (Z.leb_spec (Int64.sub now1 (NotBefore (Payload_ p))) (-15)) as [Hn | Hn].
  { split; [discriminate | intros ([= ->] & Hn' & _); lia]. }
  destruct (Z.gtb_spec (Int64.sub now2 (ExpirationTime (Payload_ p))) 15) as [He | He].
  { split; [discriminate | intros ([= ->] & _ & He' & _); lia]. }
  destruct (HasPermission p PermissionConnect) eqn:Hc; cbn [negb].
  - split.
    + intros [= ->]. auto.
    + intros ([= ->] & _). reflexivity.
  - split; [discriminate | intros ([= ->] & _ & _ & Hc'); congruence].
Qed.

(** X2: [ParseJWT] returns a payload exactly when the verifier returns that
    payload, the not-before lies less than 15 seconds ahead of the first
    clock reading, the expiration at most 15 seconds behind the second, and
    the connect permission is listed; the payload returned is the verified
    one, unchanged. *)
Theorem ParseJWT_Ok_iff payload :
  ParseJWT jwt_Verify now1 now2 token = Ok payload <->
  jwt_Verify token = Ok payload /\
  -15 < Int64.sub now1 (NotBefore (Payload_ payload)) /\
  Int64.sub now2 (ExpirationTime (Payload_ payload)) <= 15 /\
  HasPermission payload PermissionConnect = true.
Proof. exact (ParseJWT_Ok_inv payload). Qed.

(** X3: a token [ParseJWT] accepts passes [TokenValid] at the second clock
    reading on a handler bound to the server the token names: the connection
    that was just opened can act. *)
Theorem ParseJWT_then_TokenValid payload server :
  ParseJWT jwt_Verify now1 now2 token = Ok payload ->
  Uuid server = ServerUUID payload ->
  TokenValid now2 {| Server_ := server; JWT := Some payload |} = None.
Proof.
  intros Hok Hu. apply ParseJWT_Ok_inv in Hok as (_ & _ & He & Hc).
  apply (TokenValid_nil_iff now2 {| Server_ := server; JWT := Some payload |} payload eq_refl).
  auto.
Qed.
End ParseJWTAcceptance.

Lemma ParseJWT_then_TokenValid_witness :
  TokenValid 1000 {| Server_ := {| Uuid := "srv-a" |};
                     JWT := Some (Sample.token 900 4600 ["connect"]) |} = None.
Proof.
  apply (ParseJWT_then_TokenValid (Sample.verify_to (Sample.token 900 4600 ["connect"]))
           1000 1000 [] (Sample.token 900 4600 ["connect"]) {| Uuid := "srv-a" |});
    reflexivity.
Defined.

(** X4: expiry is permanent.  Once [TokenValid] has failed it fails at every
    later clock reading, provided the distance to the expiration fits
    [int64]: the server binding and the permissions do not change, and the
    age of the token only grows. *)
Theorem TokenValid_stays_invalid now now' wsh :
  now <= now' ->
  (forall jwt, JWT wsh = Some jwt ->
     Int64.in_range (now - ExpirationTime (Payload_ jwt)) /\
     Int64.in_range (now' - ExpirationTime (Payload_ jwt))) ->
  TokenValid now wsh <> None -> TokenValid now' wsh <> None.
Proof.
  intros Hle Hrange Hbad Hgood.
  destruct (TokenValid_some_jwt _ _ Hgood) as [jwt Hj].
  destruct (Hrange jwt Hj) as [Hr Hr'].
  destruct (proj1 (TokenValid_nil_iff now' wsh jwt Hj) Hgood) as (Hexp & Hc & Hu).
  apply Hbad, (TokenValid_nil_iff now wsh jwt Hj).
  rewrite Int64_sub_exact in Hexp by assumption.
  rewrite Int64_sub_exact by assumption.
  split; [lia | split; assumption].
Qed.

Lemma TokenValid_stays_invalid_witness :
  TokenValid 2000 (Sample.handler (Some (Sample.token 0 100 ["connect"]))) <> None.
Proof.
  apply (TokenValid_stays_invalid 1000 2000
           (Sample.handler (Some (Sample.token 0 100 ["connect"])))).
  - lia.
  - intros jwt [= <-]. unfold Int64.in_range, Int64.min_int, Int64.max_int. simpl. lia.
  - discriminate.
Defined.

(** ** The handler's effects *)

Section HandlerEffects.
Context {E C : Type} `{Environment E} `{Connection C}.
Variable ConsoleOutputEvent : string.

Lemma send_lines_spec logs : forall w : World E C,
  send_lines ConsoleOutputEvent logs w =
  (tt, Build_World (w_env w) (written ConsoleOutputEvent logs (w_conn w))
         (w_calls w ++ map (fun line => CallWriteJSON (console_frame ConsoleOutputEvent line))
                           logs)%list).
Proof.
  induction logs as [|line rest IH]; intros w.
  - cbn. rewrite app_nil_r. now destruct w.
  - cbn [send_lines]. unfold bind, SendJson.
    fold (console_frame ConsoleOutputEvent line).
    destruct (conn_WriteJSON (console_frame ConsoleOutputEvent line) (w_conn w))
      as [err c'] eqn:Hw.
    rewrite IH. cbn [w_env w_conn w_calls map]. unfold written. cbn [fold_left].
    rewrite Hw. cbn [snd]. now rewrite <- app_assoc.
Qed.

Lemma HandleInbound_valid now wsh m (w : World E C) jwt :
  inbound m = true -> TokenValid now wsh = None -> JWT wsh = Some jwt ->
  HandleInbound ConsoleOutputEvent now wsh m w =
  (if String.eqb (Event m) SetStateEvent then
     if negb (HasPermission jwt PermissionSendPower) then ret (Returned None)
     else
       bind (let action := String.concat "" (Args m) in
             if String.eqb action "start" then Start
             else if String.eqb action "stop" then Stop
             else if String.eqb action "restart" then ret None
             else if String.eqb action "kill" then Terminate os_Kill
             else ret None)
            (fun err => match err with
                        | Some e => ret (Returned (Some e))
                        | None => ret (Returned None)
                        end)
   else if String.eqb (Event m) SendServerLogsEvent then
     bind IsRunning (fun r =>
       if negb (fst r) then ret (Returned None)
       else bind (Readlog (1024 * 16)) (fun l =>
              match snd l with
              | Some e => ret (Returned (Some e))
              | None => bind (send_lines ConsoleOutputEvent (fst l))
                             (fun _ => ret (Returned None))
              end))
   else if String.eqb (Event m) SendCommandEvent then
     if negb (HasPermission jwt PermissionSendCommand) then ret (Returned None)
     else bind (SendCommand (String.concat "" (Args m))) (fun err => ret (Returned err))
   else ret (Returned None)) w.
Proof. intros Hin Hv Hj. unfold HandleInbound. now rewrite Hin, Hv, Hj. Qed.

Lemma HandleInbound_send_logs_run now wsh m (w : World E C) :
  inbound m = true -> TokenValid now wsh = None -> Event m = SendServerLogsEvent ->
  let ir := env_IsRunning (w_env w) in
  let rl := env_Readlog 16384 (snd ir) in
  let logs := fst (fst rl) in
  HandleInbound ConsoleOutputEvent now wsh m w =
  if negb (fst (fst ir)) then
    (Returned None, Build_World (snd ir) (w_conn w) (w_calls w ++ [CallIsRunning])%list)
  else
    match snd (fst rl) with
    | Some e =>
        (Returned (Some e),
         Build_World (snd rl) (w_conn w)
           (w_calls w ++ [CallIsRunning; CallReadlog 16384])%list)
    | None =>
        (Returned None,
         Build_World (snd rl) (written ConsoleOutputEvent logs (w_conn w))
           (w_calls w ++ [CallIsRunning; CallReadlog 16384] ++
            map (fun line => CallWriteJSON (console_frame ConsoleOutputEvent line)) logs)%list)
    end.
Proof.
  intros Hin Hv Hev ir rl logs.
  destruct (TokenValid_some_jwt _ _ Hv) as [jwt Hj].
  rewrite (HandleInbound_valid now wsh m w jwt Hin Hv Hj), Hev.
  change (String.eqb SendServerLogsEvent SetStateEvent) with false.
  rewrite String.eqb_refl. cbv iota.
  unfold bind, IsRunning, Readlog, on_env. fold ir.
  subst rl logs.
  destruct ir as [[running e0] e1]. cbn [fst snd w_env w_conn w_calls].
  destruct running; cbn [negb]; [|reflexivity].
  change (1024 * 16) with 16384. cbn [w_env w_conn w_calls].
  destruct (env_Readlog 16384 e1) as [[lines err] e2]. cbn [fst snd].
  destruct err as [e|].
  - unfold ret. now rewrite <- app_assoc.
  - rewrite send_lines_spec. cbn [w_env w_conn w_calls]. unfold ret.
    now rewrite <- !app_assoc.
Qed.

Lemma HandleInbound_send_command_run now wsh m (w : World E C) :
  inbound m = true -> TokenValid now wsh = None -> Event m = SendCommandEvent ->
  holds wsh PermissionSendCommand = true ->
  let line := String.concat "" (Args m) in
  let r := env_SendCommand line (w_env w) in
  HandleInbound ConsoleOutputEvent now wsh m w =
  (Returned (fst r),
   Build_World (snd r) (w_conn w) (w_calls w ++ [CallSendCommand line])%list).
Proof.
  intros Hin Hv Hev Hp line r.
  destruct (TokenValid_some_jwt _ _ Hv) as [jwt Hj].
  unfold holds in Hp. rewrite Hj in Hp.
  rewrite (HandleInbound_valid now wsh m w jwt Hin Hv Hj), Hev, Hp.
  change (String.eqb SendCommandEvent SetStateEvent) with false.
  change (String.eqb SendCommandEvent SendServerLogsEvent) with false.
  rewrite String.eqb_refl. cbn [negb]. cbv iota.
  unfold bind, SendCommand, on_env, ret. fold line. fold r.
  now destruct r.
Qed.

Lemma HandleInbound_no_match now wsh m (w : World E C) :
  inbound m = true ->
  Event m <> SetStateEvent -> Event m <> SendServerLogsEvent ->
  Event m <> SendCommandEvent ->
  HandleInbound ConsoleOutputEvent now wsh m w = (Returned None, w).
Proof.
  intros Hin H1 H2 H3. unfold HandleInbound. rewrite Hin. cbn [negb].
  destruct (TokenValid now wsh) as [e|] eqn:Hv; [reflexivity|].
  destruct (TokenValid_some_jwt _ _ Hv) as [jwt ->].
  apply String.eqb_neq in H1, H2, H3. now rewrite H1, H2, H3.
Qed.

(** Every call of the handler is one of the effects of [handles]. *)
Lemma HandleInbound_handles now wsh m (w : World E C) :
  handles ConsoleOutputEvent wsh m w
    (fst (HandleInbound ConsoleOutputEvent now wsh m w))
    (snd (HandleInbound ConsoleOutputEvent now wsh m w)).
Proof.
  destruct (inbound m) eqn:Hin.
  2: { unfold HandleInbound. rewrite Hin. now apply handles_outbound. }
  destruct (TokenValid now wsh) as [e|] eqn:Hv.
  { unfold HandleInbound. rewrite Hin, Hv. now apply handles_nothing. }
  destruct (TokenValid_some_jwt _ _ Hv) as [jwt Hj].
  destruct (String.eqb_spec (Event m) SetStateEvent) as [Hs | Hs].
  { rewrite (HandleInbound_valid now wsh m w jwt Hin Hv Hj), Hs.
    rewrite String.eqb_refl.
    destruct (HasPermission jwt PermissionSendPower) eqn:Hp; cbn [negb];
      [| now apply handles_nothing].
    assert (Hh : holds wsh PermissionSendPower = true) by (unfold holds; now rewrite Hj).
    assert (Hrun : forall c (op : E -> error * E),
              In (c, op (w_env w))
                 [(CallStart, env_Start (w_env w)); (CallStop, env_Stop (w_env w));
                  (CallTerminate os_Kill, env_Terminate os_Kill (w_env w))] ->
              handles ConsoleOutputEvent wsh m w
                (fst (bind (on_env c op)
                        (fun err => match err with
                                    | Some e => ret (Returned (Some e))
                                    | None => ret (Returned None)
                                    end) w))
                (snd (bind (on_env c op)
                        (fun err => match err with
                                    | Some e => ret (Returned (Some e))
                                    | None => ret (Returned None)
                                    end) w))).
    { intros c op Hin'. unfold bind, on_env, ret.
      pose proof (handles_power ConsoleOutputEvent wsh m w c (op (w_env w)) Hin Hs Hh Hin') as Hp'.
      destruct (op (w_env w)) as [[e|] e']; exact Hp'. }
    cbv zeta.
    destruct (String.eqb (String.concat "" (Args m)) "start");
      [apply (Hrun CallStart env_Start); simpl; auto|].
    destruct (String.eqb (String.concat "" (Args m)) "stop");
      [apply (Hrun CallStop env_Stop); simpl; auto|].
    destruct (String.eqb (String.concat "" (Args m)) "restart");
      [now apply handles_nothing|].
    destruct (String.eqb (String.concat "" (Args m)) "kill");
      [apply (Hrun (CallTerminate os_Kill) (env_Terminate os_Kill)); simpl; auto|].
    now apply handles_nothing. }
  destruct (String.eqb_spec (Event m) SendServerLogsEvent) as [Hl | Hl].
  { rewrite (HandleInbound_send_logs_run now wsh m w Hin Hv Hl). cbv zeta.
    change 16384 with (1024 * 16).
    destruct (fst (fst (env_IsRunning (w_env w)))) eqn:Hr; cbn [negb fst snd].
    - destruct (snd (fst (env_Readlog (1024 * 16) (snd (env_IsRunning (w_env w))))))
        as [e|] eqn:He; cbn [fst snd].
      + now apply handles_log_error.
      + now apply handles_logs.
    - now apply handles_stopped. }
  destruct (String.eqb_spec (Event m) SendCommandEvent) as [Hc | Hc].
  { destruct (holds wsh PermissionSendCommand) eqn:Hp.
    - rewrite (HandleInbound_send_command_run now wsh m w Hin Hv Hc Hp). cbv zeta.
      cbn [fst snd]. now apply handles_command.
    - unfold holds in Hp. rewrite Hj in Hp.
      rewrite (HandleInbound_valid now wsh m w jwt Hin Hv Hj), Hc, Hp.
      now apply handles_nothing. }
  rewrite (HandleInbound_no_match now wsh m w Hin Hs Hl Hc).
  now apply handles_nothing.
Qed.

(** X5: a send-logs message needs no permission beyond a valid token.  If
    the server is not running only the running state is asked for; if the
    log cannot be read the error is returned and nothing is written;
    otherwise up to 16 KiB of log are read and every line is written to the
    socket as one console frame, in order, and the result is nil whether or
    not the writes succeed. *)
Theorem HandleInbound_send_logs_spec now wsh m (w : World E C) :
  inbound m = true -> TokenValid now wsh = None -> Event m = SendServerLogsEvent ->
  let ir := env_IsRunning (w_env w) in
  let rl := env_Readlog 16384 (snd ir) in
  let logs := fst (fst rl) in
  HandleInbound ConsoleOutputEvent now wsh m w =
  if negb (fst (fst ir)) then
    (Returned None, Build_World (snd ir) (w_conn w) (w_calls w ++ [CallIsRunning])%list)
  else
    match snd (fst rl) with
    | Some e =>
        (Returned (Some e),
         Build_World (snd rl) (w_conn w)
           (w_calls w ++ [CallIsRunning; CallReadlog 16384])%list)
    | None =>
        (Returned None,
         Build_World (snd rl) (written ConsoleOutputEvent logs (w_conn w))
           (w_calls w ++ [CallIsRunning; CallReadlog 16384] ++
            map (fun line => CallWriteJSON (console_frame ConsoleOutputEvent line)) logs)%list)
    end.
Proof. exact (HandleInbound_send_logs_run now wsh m w). Qed.

(** X6: a send-command message from a valid token holding the send-command
    permission hands the arguments, joined without separator, to the control
    surface exactly once and returns what that returns; nothing is written
    to the socket. *)
Theorem HandleInbound_send_command_spec now wsh m (w : World E C) :
  inbound m = true -> TokenValid now wsh = None -> Event m = SendCommandEvent ->
  holds wsh PermissionSendCommand = true ->
  let line := String.concat "" (Args m) in
  let r := env_SendCommand line (w_env w) in
  HandleInbound ConsoleOutputEvent now wsh m w =
  (Returned (fst r),
   Build_World (snd r) (w_conn w) (w_calls w ++ [CallSendCommand line])%list).
Proof. exact (HandleInbound_send_command_run now wsh m w). Qed.

(** X7: a message whose event is none of the three known names changes
    nothing and returns nil, whatever the token. *)
Theorem HandleInbound_unknown_event now wsh m (w : World E C) :
  inbound m = true ->
  Event m <> SetStateEvent -> Event m <> SendServerLogsEvent ->
  Event m <> SendCommandEvent ->
  HandleInbound ConsoleOutputEvent now wsh m w = (Returned None, w).
Proof. exact (HandleInbound_no_match now wsh m w). Qed.

Lemma handles_read_only wsh m (w : World E C) o w' :
  handles ConsoleOutputEvent wsh m w o w' ->
  holds wsh PermissionSendPower = false ->
  holds wsh PermissionSendCommand = false ->
  exists new, called w w' new /\ forallb (fun c => negb (acts_on_server c)) new = true.
Proof.
  intros Hh Hp Hc. unfold called.
  destruct Hh; cbn [w_calls]; try congruence.
  - exists []. now rewrite app_nil_r.
  - exists []. now rewrite app_nil_r.
  - exists [CallIsRunning]. auto.
  - exists [CallIsRunning; CallReadlog (1024 * 16)]. auto.
  - eexists. split; [reflexivity|].
    cbn [forallb app acts_on_server negb andb].
    apply forallb_forall. intros c Hin. apply in_map_iff in Hin as (line & <- & _).
    reflexivity.
Qed.

Lemma handles_infallible wsh m (w : World E C) o w' :
  handles ConsoleOutputEvent wsh m w o w' ->
  infallible E -> inbound m = true -> o = Returned None.
Proof.
  intros Hh Hok Hin. destruct (Hok (w_env w)) as (Hstart & Hstop & Hterm & _ & Hcmd).
  destruct Hh as [Hout | _ | c r _ _ _ Hr | | e _ _ _ He | | ]; try reflexivity.
  - congruence.
  - f_equal. destruct Hr as [[= <- <-] | [[= <- <-] | [[= <- <-] | []]]]; auto.
  - destruct (Hok (snd (env_IsRunning (w_env w)))) as (_ & _ & _ & Hlog & _).
    rewrite Hlog in He. discriminate.
  - f_equal. apply Hcmd.
Qed.

(** X8: a handler whose token holds neither the send-power nor the
    send-command permission never acts on the managed process: whatever the
    message, the calls it adds are reads of the running state and the log and
    writes to the socket. *)
Theorem HandleInbound_read_only now wsh m (w : World E C) :
  holds wsh PermissionSendPower = false ->
  holds wsh PermissionSendCommand = false ->
  exists new,
    called w (snd (HandleInbound ConsoleOutputEvent now wsh m w)) new /\
    forallb (fun c => negb (acts_on_server c)) new = true.
Proof.
  intros Hp Hc.
  exact (handles_read_only wsh m w _ _ (HandleInbound_handles now wsh m w) Hp Hc).
Qed.

(** X9: only a send-logs message writes to the socket: for every other
    event the connection is left as it was. *)
Theorem HandleInbound_socket_untouched now wsh m (w : World E C) :
  Event m <> SendServerLogsEvent ->
  w_conn (snd (HandleInbound ConsoleOutputEvent now wsh m w)) = w_conn w.
Proof.
  intros Hev. destruct (HandleInbound_handles now wsh m w); cbn [w_conn];
    try reflexivity; contradiction.
Qed.

(** X10: the handler returns an error only when the control surface does
    (or the message is not inbound): over a control surface none of whose
    operations fails, every inbound message is answered with nil; failed
    socket writes do not count. *)
Theorem HandleInbound_nil_when_infallible now wsh m (w : World E C) :
  infallible E -> inbound m = true ->
  fst (HandleInbound ConsoleOutputEvent now wsh m w) = Returned None.
Proof.
  intros Hok Hin.
  exact (handles_infallible wsh m w _ _ (HandleInbound_handles now wsh m w) Hok Hin).
Qed.
End HandlerEffects.

Lemma HandleInbound_send_logs_spec_witness :
  HandleInbound "console output" 1000
    (Sample.handler (Some (Sample.token 0 9000 ["connect"])))
    (Sample.frame "send logs" [])
    (Build_World {| Sample.running := true; Sample.commands := ["a"; "b"] |} [] []) =
  (Returned None,
   Build_World {| Sample.running := true; Sample.commands := ["a"; "b"] |}
     [console_frame "console output" "a"; console_frame "console output" "b"]
     [CallIsRunning; CallReadlog 16384;
      CallWriteJSON (console_frame "console output" "a");
      CallWriteJSON (console_frame "console output" "b")]).
Proof.
  refine (eq_trans
    (HandleInbound_send_logs_spec "console output" 1000
       (Sample.handler (Some (Sample.token 0 9000 ["connect"])))
       (Sample.frame "send logs" [])
       (Build_World {| Sample.running := true; Sample.commands := ["a"; "b"] |} [] [])
       eq_refl eq_refl eq_refl) _).
  reflexivity.
Defined.

Lemma HandleInbound_send_command_spec_witness :
  HandleInbound "console output" 1000
    (Sample.handler (Some (Sample.token 0 9000 ["connect"; "send-command"])))
    (Sample.frame "send command" ["say "; "hi"])
    (Build_World {| Sample.running := true; Sample.commands := [] |} [] []) =
  (Returned None,
   Build_World {| Sample.running := true; Sample.commands := ["say hi"] |} []
     [CallSendCommand "say hi"]).
Proof.
  refine (eq_trans
    (HandleInbound_send_command_spec "console output" 1000
       (Sample.handler (Some (Sample.token 0 9000 ["connect"; "send-command"])))
       (Sample.frame "send command" ["say "; "hi"])
       (Build_World {| Sample.running := true; Sample.commands := [] |} [] [])
       eq_refl eq_refl eq_refl eq_refl) _).
  reflexivity.
Defined.

Lemma HandleInbound_unknown_event_witness :
  HandleInbound "console output" 1000
    (Sample.handler (Some (Sample.token 0 9000 ["connect"; "send-power"])))
    (Sample.frame "status" ["start"]) Sample.world0 =
  (Returned None, Sample.world0).
Proof.
  apply (HandleInbound_unknown_event "console output" 1000
           (Sample.handler (Some (Sample.token 0 9000 ["connect"; "send-power"])))
           (Sample.frame "status" ["start"]) Sample.world0);
    [reflexivity | discriminate | discriminate | discriminate].
Defined.

Lemma HandleInbound_read_only_witness :
  exists new,
    called Sample.world0
      (snd (HandleInbound "console output" 1000
              (Sample.handler (Some (Sample.token 0 9000 ["connect"])))
              (Sample.frame "set state" ["kill"]) Sample.world0)) new /\
    forallb (fun c => negb (acts_on_server c)) new = true.
Proof.
  apply (HandleInbound_read_only "console output" 1000
           (Sample.handler (Some (Sample.token 0 9000 ["connect"])))
           (Sample.frame "set state" ["kill"]) Sample.world0); reflexivity.
Defined.

Lemma HandleInbound_socket_untouched_witness :
  w_conn (snd (HandleInbound "console output" 1000
                 (Sample.handler (Some (Sample.token 0 9000 ["connect"; "send-power"])))
                 (Sample.frame "set state" ["start"]) Sample.world0)) = [].
Proof.
  apply (HandleInbound_socket_untouched "console output" 1000
           (Sample.handler (Some (Sample.token 0 9000 ["connect"; "send-power"])))
           (Sample.frame "set state" ["start"]) Sample.world0).
  discriminate.
Defined.

Lemma counting_environment_infallible : infallible nat.
Proof. intros n. repeat split. Qed.

Lemma HandleInbound_nil_when_infallible_witness :
  fst (HandleInbound "console output" 1000
         (Sample.handler (Some (Sample.token 0 9000 ["connect"; "send-power"])))
         (Sample.frame "set state" ["stop"])
         (Build_World 0%nat ([] : list WebsocketMessage) [])) = Returned None.
Proof.
  apply (HandleInbound_nil_when_infallible "console output" 1000
           (Sample.handler (Some (Sample.token 0 9000 ["connect"; "send-power"])))
           (Sample.frame "set state" ["stop"])
           (Build_World 0%nat ([] : list WebsocketMessage) [])
           counting_environment_infallible).
  reflexivity.
Defined.

(** ** The read loop *)

Section ReadLoopFacts.
Context {E C : Type} `{Environment E} `{Connection C}.
Variable ConsoleOutputEvent : string.
Variable json_Unmarshal : list byte -> option (string * list string).
Variable handler : WebsocketHandler.

Local Abbreviation loop := (readLoop ConsoleOutputEvent json_Unmarshal handler).

Lemma readLoop_filter frames : forall w : World E C,
  loop frames w = loop (List.filter (decodable json_Unmarshal) frames) w.
Proof.
  induction frames as [|[now p] rest IH]; intros w; [reflexivity|].
  cbn [readLoop List.filter]. unfold decodable at 1. cbn [snd].
  destruct (json_Unmarshal p) as [[event args]|] eqn:Hd; [|apply IH].
  cbn [readLoop]. rewrite Hd. unfold bind.
  destruct (HandleInbound ConsoleOutputEvent now handler _ w) as [[[e|]|] w'];
    [reflexivity | apply IH | reflexivity].
Qed.

(** X11: a frame that does not decode has no effect at all: the loop runs
    as if only the well-formed frames had arrived. *)
Theorem readLoop_skips_malformed frames (w : World E C) :
  readLoop ConsoleOutputEvent json_Unmarshal handler frames w =
  readLoop ConsoleOutputEvent json_Unmarshal handler
    (List.filter (decodable json_Unmarshal) frames) w.
Proof. apply readLoop_filter. Qed.

(** X12: the first error of the handler ends the loop: frames that arrive
    after it are not looked at. *)
Theorem readLoop_stops_at_error pre post : forall (w w' : World E C) e,
  readLoop ConsoleOutputEvent json_Unmarshal handler pre w = (HandlerError e, w') ->
  readLoop ConsoleOutputEvent json_Unmarshal handler (pre ++ post) w = (HandlerError e, w').
Proof.
  induction pre as [|[now p] rest IH]; intros w w' e Hend; [discriminate|].
  cbn [app readLoop] in *.
  destruct (json_Unmarshal p) as [[event args]|]; [|now apply IH].
  unfold bind in *.
  destruct (HandleInbound ConsoleOutputEvent now handler _ w) as [[[e0|]|] w0];
    [exact Hend | now apply IH | discriminate].
Qed.

Lemma called_trans (w1 w2 w3 : World E C) n1 n2 :
  called w1 w2 n1 -> called w2 w3 n2 -> called w1 w3 (n1 ++ n2)%list.
Proof. unfold called. intros H1' H2'. now rewrite H2', H1', app_assoc. Qed.

Lemma readLoop_called frames : forall w : World E C,
  holds handler PermissionSendPower = false ->
  holds handler PermissionSendCommand = false ->
  exists new,
    called w (snd (loop frames w)) new /\
    forallb (fun c => negb (acts_on_server c)) new = true.
Proof.
  induction frames as [|[now p] rest IH]; intros w Hp Hc.
  - exists []. unfold called. cbn. now rewrite app_nil_r.
  - cbn [readLoop].
    destruct (json_Unmarshal p) as [[event args]|]; [|now apply IH].
    unfold bind.
    pose proof (HandleInbound_handles ConsoleOutputEvent now handler
                  {| Event := event; Args := args; inbound := true |} w) as Hone.
    destruct (HandleInbound ConsoleOutputEvent now handler _ w) as [o w1].
    cbn [fst snd] in Hone.
    destruct (handles_read_only ConsoleOutputEvent handler _ w o w1 Hone Hp Hc)
      as (n1 & Hn1 & Hf1).
    destruct o as [[e|]|]; cbn [snd]; [now exists n1 | | now exists n1].
    destruct (IH w1 Hp Hc) as (n2 & Hn2 & Hf2).
    exists (n1 ++ n2)%list. split; [now apply called_trans with w1|].
    rewrite forallb_app, Hf1, Hf2. reflexivity.
Qed.

(** X13: over a whole connection, a handler whose token holds neither the
    send-power nor the send-command permission never starts, stops, kills
    or writes to the managed process, whatever frames arrive. *)
Theorem readLoop_read_only frames (w : World E C) :
  holds handler PermissionSendPower = false ->
  holds handler PermissionSendCommand = false ->
  exists new,
    called w (snd (readLoop ConsoleOutputEvent json_Unmarshal handler frames w)) new /\
    forallb (fun c => negb (acts_on_server c)) new = true.
Proof. apply readLoop_called. Qed.

(** X14: the loop never ends in a panic, and over a control surface none
    of whose operations fails it runs until the socket stops delivering:
    it ends with the read error and not with an error of the handler. *)
Theorem readLoop_ends_with_read_error frames : forall w : World E C,
  fst (readLoop ConsoleOutputEvent json_Unmarshal handler frames w) <> LoopPanicked /\
  (infallible E ->
   fst (readLoop ConsoleOutputEvent json_Unmarshal handler frames w) = ReadError).
Proof.
  induction frames as [|[now p] rest IH]; intros w; [split; [discriminate | reflexivity]|].
  cbn [readLoop].
  destruct (json_Unmarshal p) as [[event args]|]; [|apply IH].
  unfold bind.
  pose proof (HandleInbound_handles ConsoleOutputEvent now handler
                {| Event := event; Args := args; inbound := true |} w) as Hone.
  destruct (HandleInbound ConsoleOutputEvent now handler _ w) as [o w1].
  cbn [fst snd] in Hone.
  split.
  - assert (Hret : exists err, o = Returned err) by (destruct Hone; eexists; reflexivity).
    destruct Hret as [err ->]. destruct err as [e|]; cbn [fst]; [discriminate | apply IH].
  - intros Hok.
    rewrite (handles_infallible ConsoleOutputEvent handler _ w o w1 Hone Hok eq_refl).
    now apply IH.
Qed.
(** X16: while the token is not valid the connection is inert: every
    frame is dropped, nothing is called or written, and the handler does not
    end the loop. *)
Theorem readLoop_inert_without_valid_token frames : forall w : World E C,
  Forall (fun frame => TokenValid (fst frame) handler <> None) frames ->
  readLoop ConsoleOutputEvent json_Unmarshal handler frames w = (ReadError, w).
Proof.
  induction frames as [|[now p] rest IH]; intros w Hall; [reflexivity|].
  apply Forall_cons_iff in Hall as [Hbad Hrest]. cbn [fst] in Hbad.
  cbn [readLoop].
  destruct (json_Unmarshal p) as [[event args]|]; [|now apply IH].
  unfold bind, HandleInbound. cbn [inbound negb].
  destruct (TokenValid now handler) as [e|]; [|contradiction].
  unfold ret. now apply IH.
Qed.
End ReadLoopFacts.

Lemma readLoop_stops_at_error_witness :
  readLoop "console output" Sample.decode
    (Sample.handler (Some (Sample.token 0 9000 ["connect"; "send-power"])))
    ([(1000, [x00]); (1001, [x73])] ++ [(1002, [x6c])]) Sample.world0 =
  (HandlerError "server is not running",
   Build_World {| Sample.running := false; Sample.commands := [] |} [] [CallStop]).
Proof.
  apply (readLoop_stops_at_error "console output" Sample.decode
           (Sample.handler (Some (Sample.token 0 9000 ["connect"; "send-power"])))
           [(1000, [x00]); (1001, [x73])] [(1002, [x6c])]).
  reflexivity.
Defined.

Lemma readLoop_read_only_witness :
  exists new,
    called Sample.world0
      (snd (readLoop "console output" Sample.decode
              (Sample.handler (Some (Sample.token 0 9000 ["connect"])))
              [(1000, [x73]); (1001, [x6c])] Sample.world0)) new /\
    forallb (fun c => negb (acts_on_server c)) new = true.
Proof.
  apply (readLoop_read_only "console output" Sample.decode
           (Sample.handler (Some (Sample.token 0 9000 ["connect"])))
           [(1000, [x73]); (1001, [x6c])] Sample.world0); reflexivity.
Defined.

(** ** Resource figures *)

Lemma pack_bounded mm ee hi :
  0 <= mm -> canonical mm ee -> ee <= hi -> hi <= 971 ->
  bounded_nonneg hi (pack false (mm, ee)).
Proof.
  intros Hm Hc He Hhi. destruct mm as [|p|p]; [left; reflexivity | right | lia].
  unfold pack; cbn [fst snd]. change (emax - prec) with 971.
  destruct (Z.leb_spec ee 971); [|lia]. exists p, ee. auto.
Qed.

Lemma bounded_nonneg_weaken a b x : a <= b -> bounded_nonneg a x -> bounded_nonneg b x.
Proof.
  intros Hab [-> | (m & e & -> & Hc & He)]; [left; reflexivity | right].
  exists m, e. repeat split; auto; lia.
Qed.

Lemma bounded_nonneg_float hi x : hi <= 971 -> bounded_nonneg hi x -> nonneg_float x.
Proof.
  intros Hhi [-> | (m & e & -> & Hc & He)]; [exact I | split; [exact Hc | lia]].
Qed.

(** A product of two bounded numbers is bounded: no overflow. *)
Lemma mul_bounded a b x c :
  bounded_nonneg a x -> bounded_nonneg b c -> -1073 <= a + b + 54 <= 971 ->
  bounded_nonneg (a + b + 54) (SFmul prec emax x c).
Proof.
  intros [-> | (mx & ex & -> & Hx & Hex)] [-> | (mc & ec & -> & Hc & Hec)] Hhi;
    try (left; reflexivity).
  destruct (mul_finite_model mx ex mc ec Hx Hc) as [Hf ->].
  unfold rnd_q.
  set (T := sticky (Zpos mx * Zpos mc) 1) in *.
  pose proof (round_fine_canonical T (ex + ec)
                (sticky_nonneg (Zpos mx * Zpos mc) 1 ltac:(lia) ltac:(lia)) Hf) as (H0 & Hcan & Hee & _).
  cbv zeta in Hee. unfold T in Hee. rewrite sticky_div4, Z.div_1_r, fexp_eq in Hee by lia.
  destruct (canonical_digits _ _ Hx) as (Hdx & Hlx & _).
  destruct (canonical_digits _ _ Hc) as (Hdc & Hlc & _).
  assert (Hd : Zdigits2 (Zpos mx * Zpos mc) <= 106).
  { apply Zdigits2_le; [lia | lia |].
    assert (Zpos mx < 2 ^ 53) by (apply Zdigits2_le; lia).
    assert (Zpos mc < 2 ^ 53) by (apply Zdigits2_le; lia).
    change (2 ^ 106) with (2 ^ 53 * 2 ^ 53). nia. }
  fold T in Hee |- *.
  destruct (round_fine T (ex + ec)) as [mm ee]. cbn [fst snd] in *.
  apply pack_bounded; auto; lia.
Qed.

(** A quotient by a positive number whose exponent is at least [lo] is
    bounded: no overflow, and no division by zero. *)
Lemma div_bounded a lo x mc ec :
  bounded_nonneg a x -> canonical (Zpos mc) ec -> lo <= ec ->
  -1074 <= a - lo -> a - lo + 1 <= 971 ->
  bounded_nonneg (a - lo + 1) (SFdiv prec emax x (S754_finite false mc ec)).
Proof.
  intros [-> | (mx & ex & -> & Hx & Hex)] Hc Hlo Hlow Hhi; [left; reflexivity|].
  destruct (div_finite_model mx ex mc ec) as [Hf ->]. cbv zeta in *.
  set (e' := div_exp (Zpos mx) ex (Zpos mc) ec) in *.
  set (N := Zpos mx * 1 * 2 ^ (ex - ec - e')) in *.
  pose proof (div_exp_le (Zpos mx) ex (Zpos mc) ec) as He'. fold e' in He'.
  assert (Hp : 0 < 2 ^ (ex - ec - e')) by pow2_pos.
  assert (HN : 0 < N) by (unfold N; nia).
  unfold rnd_q.
  pose proof (round_fine_canonical (sticky N (Zpos mc)) e'
                (sticky_nonneg N (Zpos mc) ltac:(lia) ltac:(lia)) Hf) as (H0 & Hcan & Hee & _).
  cbv zeta in Hee. rewrite sticky_div4 in Hee by lia.
  assert (Hdq : Zdigits2 (N / Zpos mc) <= 53 + (ex - ec - e')).
  { apply Zdigits2_le; [apply Z.div_pos; lia | lia |].
    destruct (canonical_digits _ _ Hx) as (Hdd & _).
    assert (Zpos mx < 2 ^ 53) by (apply Zdigits2_le; lia).
    assert (N / Zpos mc <= N) by (apply Z.div_le_upper_bound; nia).
    rewrite Z.pow_add_r by lia. unfold N in *. nia. }
  rewrite fexp_eq in Hee.
  destruct (round_fine (sticky N (Zpos mc)) e') as [mm ee]. cbn [fst snd] in *.
  apply pack_bounded; auto; lia.
Qed.

(** [Round] never raises a number above the grid of the integers. *)
Lemma Round_bounded a x : 0 <= a -> a <= 971 -> bounded_nonneg a x -> bounded_nonneg a (Round x).
Proof.
  intros H0 Hhi [-> | (m & e & -> & Hc & He)]; [left; reflexivity|].
  destruct (Round_pack m e Hc ltac:(lia)) as (-> & Hm & Hcan).
  assert (Hs : snd (Round_pair (Zpos m) e) <= a).
  { unfold Round_pair.
    destruct (0 <=? e) eqn:E0; [cbn [snd]; lia|]. apply Z.leb_gt in E0. cbv zeta.
    destruct (Zdigits2 (Zpos m) + e <? 0); [cbn [snd]; lia|].
    destruct (Zdigits2 (Zpos m) + e =? 0); [cbn [snd]; lia|].
    destruct (round_half_up (Zpos m) (- e) =? 2 ^ 53); cbn [snd]; lia. }
  destruct (Round_pair (Zpos m) e) as [mm ee]. cbn [fst snd] in *.
  apply pack_bounded; auto.
Qed.

Lemma of_Z_bounded n : 0 <= n < 2 ^ 64 -> bounded_nonneg 12 (of_Z n).
Proof.
  intros Hn. destruct (of_Z_ranged n Hn) as [-> | (m & e & -> & Hc & He)];
    [left; reflexivity | right].
  exists m, e. repeat split; auto; lia.
Qed.

Lemma of_Z_divisor n :
  0 < n < 2 ^ 64 ->
  exists m e, of_Z n = S754_finite false m e /\ canonical (Zpos m) e /\ -52 <= e.
Proof.
  intros Hn. destruct (of_Z_positive_ranged n Hn) as (m & e & -> & Hc & He).
  exists m, e. repeat split; auto; lia.
Qed.

Lemma cpus_bounded stats : cpu_stats_in_range stats -> bounded_nonneg 12 (cpus stats).
Proof.
  intros (_ & _ & Hn & Hl). unfold cpus.
  destruct (eqb (of_Z (OnlineCPUs stats)) zero); apply of_Z_bounded; lia.
Qed.

Lemma percent_of_bounded d sd c :
  ranged (-104) 77 d -> ranged (-104) 77 sd -> bounded_nonneg 12 c ->
  bounded_nonneg 314 (percent_of d sd c).
Proof.
  intros Hd Hsd Hc. unfold percent_of.
  destruct (ltb zero sd) eqn:Hs; [|left; reflexivity].
  destruct (ltb zero d) eqn:Hp; [|left; reflexivity]. cbn [andb].
  destruct (ranged_positive _ _ _ Hd Hp) as (md & ed & -> & Hcd & Hed).
  destruct (ranged_positive _ _ _ Hsd Hs) as (ms & es & -> & Hcs & Hes).
  unfold mul, div.
  assert (Hq : bounded_nonneg 182
                 (SFdiv prec emax (S754_finite false md ed) (S754_finite false ms es))).
  { apply (div_bounded 77 (-104)); try lia; [|exact Hcs].
    right. exists md, ed. repeat split; auto; lia. }
  apply (mul_bounded 248 12); [|apply of_Z_bounded; lia | lia].
  apply (mul_bounded 182 12); auto; lia.
Qed.

Lemma to_millis_bounded p : bounded_nonneg 314 p -> bounded_nonneg 433 (to_millis p).
Proof.
  intros Hp. unfold to_millis, div, mul.
  destruct (of_Z_divisor 1000 ltac:(lia)) as (m & e & E & Hc & He).
  unfold c1000 at 2. rewrite E.
  apply (div_bounded 380 (-52)); try lia; [|exact Hc].
  apply Round_bounded; try lia.
  apply (mul_bounded 314 12); [exact Hp | apply of_Z_bounded; lia | lia].
Qed.

(** X15: on samples whose counters are in the range of their Go types the
    absolute CPU figure is positive zero or a positive finite number (below
    [2^486]): never NaN, never infinite, never negative, so it can always
    be encoded as JSON. *)
Theorem CalculateAbsoluteCpu_finite ru pStats stats :
  cpu_stats_in_range pStats -> cpu_stats_in_range stats ->
  bounded_nonneg 433 (CalculateAbsoluteCpu ru pStats stats).
Proof.
  intros Hp Hs. rewrite CalculateAbsoluteCpu_eq, percent_eq.
  apply to_millis_bounded, percent_of_bounded;
    auto using cpuDelta_ranged, systemDelta_ranged, cpus_bounded.
Qed.

Lemma CalculateAbsoluteCpu_finite_witness :
  let ru := {| Memory := 7; MemoryLimit := 9; CpuAbsolute := c100; Disk := 5;
               Network := {| RxBytes := 1; TxBytes := 2 |} |} in
  let pStats := {| CPUUsage_ := {| TotalUsage := 0; PercpuUsage := [] |};
                   SystemUsage := 2 ^ 64 - 2; OnlineCPUs := 2 ^ 32 - 1 |} in
  let stats := {| CPUUsage_ := {| TotalUsage := 2 ^ 64 - 1; PercpuUsage := [] |};
                  SystemUsage := 2 ^ 64 - 1; OnlineCPUs := 2 ^ 32 - 1 |} in
  bounded_nonneg 433 (CalculateAbsoluteCpu ru pStats stats).
Proof.
  intros ru pStats stats.
  apply (CalculateAbsoluteCpu_finite ru pStats stats);
    unfold cpu_stats_in_range, Uint64.in_range, Uint64.modulus; cbn; lia.
Defined.

Lemma of_Z_nonzero n : 0 < n < 2 ^ 64 -> eqb (of_Z n) zero = false.
Proof.
  intros Hn. destruct (of_Z_positive_ranged n Hn) as (m & e & -> & _). reflexivity.
Qed.

(** X17: what [CalculateAbsoluteCpu] reads.  Of the previous sample only
    the two counters, whatever the current sample; of the current sample
    the two counters and the number of online CPUs, and, only when that
    number is zero, the length of the per-CPU list.  Two calls that agree on
    these give the same figure: the receiver, the previous sample's CPU
    count and per-CPU list, and the entries of the current per-CPU list have
    no influence. *)
Theorem CalculateAbsoluteCpu_reads ru ru' pStats pStats' stats stats' :
  TotalUsage (CPUUsage_ pStats) = TotalUsage (CPUUsage_ pStats') ->
  SystemUsage pStats = SystemUsage pStats' ->
  TotalUsage (CPUUsage_ stats) = TotalUsage (CPUUsage_ stats') ->
  SystemUsage stats = SystemUsage stats' ->
  OnlineCPUs stats = OnlineCPUs stats' ->
  0 <= OnlineCPUs stats < 2 ^ 32 ->
  (OnlineCPUs stats = 0 ->
   length (PercpuUsage (CPUUsage_ stats)) = length (PercpuUsage (CPUUsage_ stats'))) ->
  CalculateAbsoluteCpu ru pStats stats = CalculateAbsoluteCpu ru' pStats' stats'.
Proof.
  intros Hpt Hps Hst Hss Hn Hrange Hlen.
  unfold CalculateAbsoluteCpu, percent, cpuDelta, systemDelta, cpus.
  rewrite <- Hpt, <- Hps, <- Hst, <- Hss, <- Hn.
  destruct (Z.eq_dec (OnlineCPUs stats) 0) as [H0 | H0].
  - rewrite <- (Hlen H0). reflexivity.
  - rewrite of_Z_nonzero by lia. reflexivity.
Qed.

(** No online count: the two calls differ in the receiver, in the previous
    sample's CPU count and per-CPU list and in the entries of the current
    per-CPU list. *)
Lemma CalculateAbsoluteCpu_reads_witness :
  let ru := {| Memory := 7; MemoryLimit := 9; CpuAbsolute := c100; Disk := 5;
               Network := {| RxBytes := 1; TxBytes := 2 |} |} in
  CalculateAbsoluteCpu ru
    {| CPUUsage_ := {| TotalUsage := 100; PercpuUsage := [60; 40] |};
       SystemUsage := 1000; OnlineCPUs := 2 |}
    {| CPUUsage_ := {| TotalUsage := 223; PercpuUsage := [200; 23] |};
       SystemUsage := 2000; OnlineCPUs := 0 |} =
  CalculateAbsoluteCpu (Empty ru)
    {| CPUUsage_ := {| TotalUsage := 100; PercpuUsage := [1; 2; 3; 4; 5; 6; 7; 8] |};
       SystemUsage := 1000; OnlineCPUs := 0 |}
    {| CPUUsage_ := {| TotalUsage := 223; PercpuUsage := [0; 223] |};
       SystemUsage := 2000; OnlineCPUs := 0 |}.
Proof.
  intros ru.
  apply (CalculateAbsoluteCpu_reads ru (Empty ru)); cbn; try reflexivity; lia.
Defined.

(** With an online count the current per-CPU list is not read at all. *)
Example CalculateAbsoluteCpu_online_count_wins :
  let ru := {| Memory := 0; MemoryLimit := 0; CpuAbsolute := zero; Disk := 0;
               Network := {| RxBytes := 0; TxBytes := 0 |} |} in
  let pStats := {| CPUUsage_ := {| TotalUsage := 100; PercpuUsage := [] |};
                   SystemUsage := 1000; OnlineCPUs := 4 |} in
  CalculateAbsoluteCpu ru pStats
    {| CPUUsage_ := {| TotalUsage := 223; PercpuUsage := [] |};
       SystemUsage := 2000; OnlineCPUs := 4 |} =
  CalculateAbsoluteCpu ru pStats
    {| CPUUsage_ := {| TotalUsage := 223; PercpuUsage := [1; 2; 3; 4; 5; 6] |};
       SystemUsage := 2000; OnlineCPUs := 4 |}.
Proof. vm_compute. reflexivity. Qed.

(** X18: a sample that reports no online CPUs and carries no per-CPU list
    counts zero CPUs, and the figure is zero however much CPU time was
    used. *)
Theorem CalculateAbsoluteCpu_no_cpus ru pStats stats :
  cpu_stats_in_range pStats -> cpu_stats_in_range stats ->
  OnlineCPUs stats = 0 -> PercpuUsage (CPUUsage_ stats) = [] ->
  CalculateAbsoluteCpu ru pStats stats = zero.
Proof.
  intros Hp Hs Hn Hl. apply CalculateAbsoluteCpu_of_zero_percent.
  assert (Hc : cpus stats = zero) by (unfold cpus; rewrite Hn, Hl; reflexivity).
  rewrite percent_eq, Hc.
  pose proof (cpuDelta_ranged pStats stats Hp Hs) as Hd.
  pose proof (systemDelta_ranged pStats stats Hp Hs) as Hsd.
  destruct (ltb zero (systemDelta pStats stats)) eqn:E1;
    [destruct (ltb zero (cpuDelta pStats stats)) eqn:E2|].
  - apply (percent_of_positive _ _ zero Hd Hsd (or_introl eq_refl) E1 E2). reflexivity.
  - unfold percent_of. now rewrite E1, E2.
  - unfold percent_of. now rewrite E1.
Qed.

Lemma CalculateAbsoluteCpu_no_cpus_witness :
  let ru := {| Memory := 7; MemoryLimit := 9; CpuAbsolute := c100; Disk := 5;
               Network := {| RxBytes := 1; TxBytes := 2 |} |} in
  let pStats := {| CPUUsage_ := {| TotalUsage := 100; PercpuUsage := [] |};
                   SystemUsage := 1000; OnlineCPUs := 0 |} in
  let stats := {| CPUUsage_ := {| TotalUsage := 900; PercpuUsage := [] |};
                  SystemUsage := 2000; OnlineCPUs := 0 |} in
  CalculateAbsoluteCpu ru pStats stats = zero.
Proof.
  intros ru pStats stats.
  apply (CalculateAbsoluteCpu_no_cpus ru pStats stats);
    unfold cpu_stats_in_range, Uint64.in_range, Uint64.modulus; cbn; try reflexivity; lia.
Defined.

(** X19: the memory figure is zero only for a sample whose usage is zero:
    a deduction is made only when it leaves something. *)
Theorem CalculateDockerMemory_zero_iff ru stats :
  stats_in_range stats ->
  (CalculateDockerMemory ru stats = 0 <-> Usage stats = 0).
Proof.
  intros Hr. pose proof Hr as [Hu Hm].
  pose proof (map_get_in_range _ "inactive_file" Hm) as Hi.
  unfold Uint64.in_range in Hu, Hi.
  assert (Hnb : total_not_below stats \/
                exists v, Stats stats !! "total_inactive_file" = Some v /\ v < Usage stats).
  { unfold total_not_below. destruct (Stats stats !! "total_inactive_file") as [v|] eqn:Hv.
    - destruct (Z_lt_le_dec v (Usage stats)); [right; eauto | left].
      intros v' [= <-]. lia.
    - left. discriminate. }
  destruct Hnb as [Hnb | (v & Hv & Hlt)].
  - destruct (Z_lt_le_dec (map_get (Stats stats) "inactive_file") (Usage stats)).
    + rewrite (docker_memory_inactive ru stats Hr Hnb) by assumption. lia.
    + rewrite (docker_memory_raw ru stats Hnb) by assumption. lia.
  - rewrite (docker_memory_total ru stats Hr v Hv Hlt).
    pose proof (Hm _ _ Hv) as Hv'. unfold Uint64.in_range in Hv'. lia.
Qed.

Lemma CalculateDockerMemory_zero_iff_witness :
  let ru := {| Memory := 7; MemoryLimit := 9; CpuAbsolute := c100; Disk := 5;
               Network := {| RxBytes := 1; TxBytes := 2 |} |} in
  let stats := {| Usage := 0; Stats := {["total_inactive_file" := 40]} |} in
  CalculateDockerMemory ru stats = 0.
Proof.
  intros ru stats.
  apply (CalculateDockerMemory_zero_iff ru stats); [|reflexivity].
  split; [unfold Uint64.in_range, Uint64.modulus; cbn; lia|].
  apply map_Forall_singleton. unfold Uint64.in_range, Uint64.modulus. lia.
Defined.

Lemma readLoop_inert_without_valid_token_witness :
  readLoop "console output" Sample.decode
    (Sample.handler (Some (Sample.token 0 100 ["connect"; "send-power"])))
    [(1000, [x73]); (1001, [x6c])]
    (Build_World {| Sample.running := true; Sample.commands := ["a"] |} [] []) =
  (ReadError, Build_World {| Sample.running := true; Sample.commands := ["a"] |} [] []).
Proof.
  apply (readLoop_inert_without_valid_token "console output" Sample.decode
           (Sample.handler (Some (Sample.token 0 100 ["connect"; "send-power"])))
           [(1000, [x73]); (1001, [x6c])]).
  repeat constructor; discriminate.
Defined.

Lemma readLoop_ends_with_read_error_witness :
  fst (readLoop "console output" Sample.decode
         (Sample.handler (Some (Sample.token 0 9000 ["connect"; "send-power"])))
         [(1000, [x73]); (1001, [x00]); (1002, [x6c])]
         (Build_World 0%nat ([] : list WebsocketMessage) [])) = ReadError.
Proof.
  apply (proj2 (readLoop_ends_with_read_error "console output" Sample.decode
                  (Sample.handler (Some (Sample.token 0 9000 ["connect"; "send-power"])))
                  [(1000, [x73]); (1001, [x00]); (1002, [x6c])]
                  (Build_World 0%nat ([] : list WebsocketMessage) []))).
  exact counting_environment_infallible.
Defined.
